(** * Water Sort Puzzle solver: the puzzle model and the depth-first search

    A shallow embedding of [wsp_lib/graph_base.py], [wsp_lib/wsp_graph.py]
    and [wsp_lib/dfs.py], followed by the properties of the puzzle model
    (legality, pouring, goal test, canonical equality) and of the search
    engine (path reconstruction, depth bound), and by further properties of
    both: what a pour keeps, states with the same tubes in another order,
    what every call of the search keeps, and the completeness of the
    unbounded search on the puzzle.

    Conventions of the embedding:
    - a Python [int] is a [Z]; [len] is [Z.of_nat (length _)];
    - a colour is a Python [str], here a [string]; a tube is the list of its
      colours from bottom to top, so the top of a tube is its last element;
    - a state is built from tubes that are distinct list objects, so that a
      list of lists is taken by value; where the code itself makes two names
      refer to one list ([from_tube] and [to_tube] of a pour of a tube into
      itself), the model writes through the index into the list of tubes;
    - a Python exception is a [Raised] outcome;
    - recursion of the search is bounded by a fuel argument, [None] meaning
      that the fuel ran out before the call returned. *)

From Stdlib Require Import ZArith Lia.
From stdpp Require Import base option list list_numbers strings sorting gmap.

Local Open Scope Z_scope.

(** ** Python values and exceptions *)

Module python.

Inductive exn : Type :=
| ValueError_not_WSPAction   (* raise ValueError: the action is no WSPAction *)
| ValueError_invalid_action  (* raise ValueError: the action is not valid *)
| IndexError.                (* pop from, or index into, an empty list *)

Inductive outcome (A : Type) : Type :=
| Returned (x : A)
| Raised (e : exn).
Arguments Returned {A} x.
Arguments Raised {A} e.

Global Instance outcome_ret : MRet outcome := @Returned.
Global Instance outcome_bind : MBind outcome := λ A B f m,
  match m with
  | Returned x => f x
  | Raised e => Raised e
  end.

(** [len(l)] *)
Definition len {A} (l : list A) : Z := Z.of_nat (length l).

(** [range(n)] *)
Definition range (n : Z) : list Z := seqZ 0 n.

(** [not l], the emptiness test of a list *)
Definition is_empty {A} (l : list A) : bool :=
  match l with [] => true | _ => false end.

(** [l[-1]] *)
Definition top {A} (l : list A) : outcome A :=
  match last l with
  | Some x => Returned x
  | None => Raised IndexError
  end.

(** [l.pop()]: the list as it is left, and the element removed *)
Definition pop {A} (l : list A) : outcome (list A * A) :=
  match last l with
  | Some x => Returned (removelast l, x)
  | None => Raised IndexError
  end.

(** Order of [str] values: by code points, which the byte order of the
    UTF-8 encoding agrees with. *)
Definition str_lt (a b : string) : bool := String.ltb a b.

(** Order of tuples: the first position where the two differ decides; a
    proper prefix comes first. *)
Fixpoint tuple_lt (a b : list string) : bool :=
  match a, b with
  | [], [] => false
  | [], _ :: _ => true
  | _ :: _, [] => false
  | x :: a', y :: b' => if String.eqb x y then tuple_lt a' b' else str_lt x y
  end.

(** [sorted] only asks whether an element is smaller than another one; it
    is a stable merge sort, which keeps [x] before [y] unless [y < x]. *)
Definition sort_le (x y : list string) : Prop := tuple_lt y x = false.

Global Instance sort_le_dec : RelDecision sort_le.
Proof. intros x y. unfold sort_le. apply _. Defined.

Definition sorted (l : list (list string)) : list (list string) :=
  merge_sort sort_le l.

(** A Python [set] of hashable objects, as the list of its members.
    Membership looks for a member with the same hash that is equal. *)
Section set.
Context {A : Type} (hash : A → Z) (eq : A → A → bool).

Definition set_contains (s : list A) (x : A) : bool :=
  existsb (λ y, (hash y =? hash x) && eq y x) s.

Definition set_add (s : list A) (x : A) : list A :=
  if set_contains s x then s else x :: s.
End set.

End python.

(** ** graph_base.py *)

Module graph_base.
Import python.

(** The abstract base class [State], over the actions of its graph. *)
Class State (St Act : Type) : Type := {
  get_possible_actions : St → list Act;
  is_goal : St → bool;
  apply_action : St → Act → outcome St;
  is_valid_action : St → Act → bool;
  __eq__ : St → St → bool;
  __hash__ : St → Z
}.

End graph_base.

(** ** wsp_graph.py *)

Module wsp_graph.
Import python.

Record WSPAction : Type := { from_tube : Z; to_tube : Z }.

(** An [Action] given to the puzzle is a [WSPAction] or an instance of
    another class. *)
Inductive Action : Type :=
| IsWSPAction (a : WSPAction)
| NotWSPAction.

Record WSPState : Type := {
  tubes : list (list string);
  max_tube_capacity : Z
}.

Definition is_valid_action (self : WSPState) (action : Action) : bool :=
  match action with
  | NotWSPAction => false
  | IsWSPAction a =>
    let from_idx := from_tube a in
    let to_idx := to_tube a in
    if (from_idx <? 0) || (len (tubes self) <=? from_idx)
       || (to_idx <? 0) || (len (tubes self) <=? to_idx)
    then false
    else
      let from_tube' := tubes self !!! Z.to_nat from_idx in
      let to_tube' := tubes self !!! Z.to_nat to_idx in
      if is_empty from_tube' then false
      else if max_tube_capacity self <=? len to_tube' then false
      else if negb (is_empty to_tube')
              && bool_decide (last to_tube' ≠ last from_tube')
      then false
      else true
  end.

Definition get_possible_actions (self : WSPState) : list Action :=
  foldl (λ actions from_idx,
    foldl (λ actions to_idx,
      if from_idx =? to_idx then actions
      else
        let action := IsWSPAction {| from_tube := from_idx; to_tube := to_idx |} in
        if is_valid_action self action then actions ++ [action] else actions)
      actions (range (len (tubes self))))
    [] (range (len (tubes self))).

(** [set(tube)] *)
Definition set_of (tube : list string) : gset string := list_to_set tube.

Fixpoint is_goal_loop (capacity : Z) (tubes : list (list string)) : bool :=
  match tubes with
  | [] => true
  | tube :: rest =>
    if is_empty tube then is_goal_loop capacity rest
    else if 1 <? Z.of_nat (size (set_of tube)) then false
    else if (len tube <? capacity) && (0 <? len tube) then false
    else is_goal_loop capacity rest
  end.

Definition is_goal (self : WSPState) : bool :=
  is_goal_loop (max_tube_capacity self) (tubes self).

(** The loop counting the units of [top_color] at the top of the source:
    [i] runs from the last index down, that is over the reversed tube. *)
Fixpoint count_loop (top_color : string) (rev_tube : list string) (count : Z) : Z :=
  match rev_tube with
  | [] => count
  | c :: rest =>
    if String.eqb c top_color then count_loop top_color rest (count + 1)
    else count
  end.

(** One round of [to_tube.append(from_tube.pop())]. The two names refer to
    the lists held in [new_tubes] at [from_idx] and [to_idx], the same list
    when the two indices agree. *)
Definition pour_once (from_idx to_idx : nat) (new_tubes : list (list string))
  : outcome (list (list string)) :=
  '(rest, c) ← pop (new_tubes !!! from_idx);
  let new_tubes := <[from_idx := rest]> new_tubes in
  mret (<[to_idx := (new_tubes !!! to_idx) ++ [c]]> new_tubes).

Fixpoint pour_loop (rounds : nat) (from_idx to_idx : nat)
    (new_tubes : list (list string)) : outcome (list (list string)) :=
  match rounds with
  | O => mret new_tubes
  | S rounds' =>
    new_tubes ← pour_once from_idx to_idx new_tubes;
    pour_loop rounds' from_idx to_idx new_tubes
  end.

(** [deepcopy] of a list of lists of strings: an equal value that shares
    no list with the original. *)
Definition deepcopy (tubes : list (list string)) : list (list string) := tubes.

(** A call [self.apply_action(action)]: the receiver as the call leaves it,
    and the outcome of the call. All writes go to the copy [new_tubes]. *)
Definition apply_action_call (self : WSPState) (action : Action)
  : WSPState * outcome WSPState :=
  match action with
  | NotWSPAction => (self, Raised ValueError_not_WSPAction)
  | IsWSPAction a =>
    if negb (is_valid_action self action)
    then (self, Raised ValueError_invalid_action)
    else
      let new_tubes := deepcopy (tubes self) in
      let from_idx := Z.to_nat (from_tube a) in
      let to_idx := Z.to_nat (to_tube a) in
      let from_tube' := new_tubes !!! from_idx in
      let to_tube' := new_tubes !!! to_idx in
      (self,
       top_color ← top from_tube';
       let count := count_loop top_color (reverse from_tube') 0 in
       let available_space := max_tube_capacity self - len to_tube' in
       let move_amount := Z.min count available_space in
       new_tubes ← pour_loop (Z.to_nat move_amount) from_idx to_idx new_tubes;
       mret {| tubes := new_tubes; max_tube_capacity := max_tube_capacity self |})
  end.

Definition apply_action (self : WSPState) (action : Action) : outcome WSPState :=
  (apply_action_call self action).2.

Definition __eq__ (self other : WSPState) : bool :=
  if negb (len (tubes self) =? len (tubes other)) then false
  else
    let sorted_self := sorted (tubes self) in
    let sorted_other := sorted (tubes other) in
    bool_decide (sorted_self = sorted_other).

Section hash.
(** Python's [hash] on tuples of tuples of strings. *)
Variable hash : list (list string) → Z.

Definition __hash__ (self : WSPState) : Z :=
  let sorted_tubes := sorted (tubes self) in
  hash sorted_tubes.

(** [WSPState] implements the abstract class [State]. *)
Definition WSPState_State : graph_base.State WSPState Action := {|
  graph_base.get_possible_actions := get_possible_actions;
  graph_base.is_goal := is_goal;
  graph_base.apply_action := apply_action;
  graph_base.is_valid_action := is_valid_action;
  graph_base.__eq__ := __eq__;
  graph_base.__hash__ := __hash__
|}.
End hash.

End wsp_graph.

(** ** dfs.py *)

Module dfs.
Import python graph_base.

Section DFSSearcher.
Context {St Act : Type} `{!State St Act}.

(** The fields of a [DFSSearcher] object. *)
Record DFSSearcher : Type := {
  initial_state : St;
  visited_states : list St;
  path_to_goal : list (St * option Act)
}.

Definition __init__ (initial_state : St) : DFSSearcher :=
  {| initial_state := initial_state; visited_states := []; path_to_goal := [] |}.

(** [state in self.visited_states] *)
Definition visited (self : DFSSearcher) (state : St) : bool :=
  set_contains __hash__ __eq__ (visited_states self) state.

(** [self.visited_states.add(state)] *)
Definition visited_add (self : DFSSearcher) (state : St) : DFSSearcher :=
  {| initial_state := initial_state self;
     visited_states := set_add __hash__ __eq__ (visited_states self) state;
     path_to_goal := path_to_goal self |}.

(** [self.path_to_goal.append(entry)] *)
Definition path_append (self : DFSSearcher) (entry : St * option Act) : DFSSearcher :=
  {| initial_state := initial_state self;
     visited_states := visited_states self;
     path_to_goal := path_to_goal self ++ [entry] |}.

(** [self.path_to_goal.pop()], the searcher as it is left *)
Definition path_pop (self : DFSSearcher) : DFSSearcher * outcome unit :=
  match pop (path_to_goal self) with
  | Returned (rest, _) =>
    ({| initial_state := initial_state self;
        visited_states := visited_states self;
        path_to_goal := rest |}, Returned ())
  | Raised e => (self, Raised e)
  end.

(** A call of a method of the searcher: [None] when the fuel ran out,
    else the searcher as the call leaves it and the outcome. *)
Definition call (A : Type) : Type := option (DFSSearcher * outcome A).

(** [self.path_to_goal.pop(); return False] *)
Definition pop_and_fail (self : DFSSearcher) : call bool :=
  match path_pop self with
  | (self, Returned _) => Some (self, Returned false)
  | (self, Raised e) => Some (self, Raised e)
  end.

(** The loop [for next_action in state.get_possible_actions()] of [_dfs],
    over the actions still to try; [visit] is the recursive call. *)
Definition for_each_action
    (visit : St → Act → DFSSearcher → call bool) (state : St)
  : list Act → DFSSearcher → call bool :=
  fix for_loop (actions : list Act) (self : DFSSearcher) : call bool :=
    match actions with
    | [] => pop_and_fail self
    | next_action :: actions' =>
      match apply_action state next_action with
      | Raised e => Some (self, Raised e)
      | Returned next_state =>
        match visit next_state next_action self with
        | None => None
        | Some (self, Raised e) => Some (self, Raised e)
        | Some (self, Returned true) => Some (self, Returned true)
        | Some (self, Returned false) => for_loop actions' self
        end
      end
    end.

Fixpoint _dfs (fuel : nat) (state : St) (action : option Act)
    (depth max_depth : Z) (self : DFSSearcher) : call bool :=
  match fuel with
  | O => None
  | S fuel' =>
    if visited self state then Some (self, Returned false)
    else
      let self := visited_add self state in
      let self := path_append self (state, action) in
      if is_goal state then Some (self, Returned true)
      else if (0 <=? max_depth) && (max_depth <=? depth) then pop_and_fail self
      else
        for_each_action
          (λ next_state next_action,
             _dfs fuel' next_state (Some next_action) (depth + 1) max_depth)
          state (get_possible_actions state) self
  end.

Definition search (fuel : nat) (max_depth : Z) (self : DFSSearcher) : call bool :=
  let self := {| initial_state := initial_state self;
                 visited_states := [];
                 path_to_goal := [] |} in
  _dfs fuel (initial_state self) None 0 max_depth self.

Definition get_solution (self : DFSSearcher) : list (St * option Act) :=
  path_to_goal self.

End DFSSearcher.

Arguments DFSSearcher St Act : clear implicits.

End dfs.

(** * Vocabulary of the properties *)

Import python wsp_graph.

(** The action pouring from tube [s] into tube [d]. *)
Definition pour (s d : Z) : Action := IsWSPAction {| from_tube := s; to_tube := d |}.

(** All units of a tube have the same colour. *)
Definition uniform (tube : list string) : Prop :=
  ∀ x y, x ∈ tube → y ∈ tube → x = y.

(** The run at the top of a tube: [tube] is [base] with [r] units of colour
    [c] on top of it, and the unit under them, if any, has another colour. *)
Definition top_run (tube base : list string) (r : nat) (c : string) : Prop :=
  tube = base ++ replicate r c ∧ last base ≠ Some c.

(** The number of units a pour moves: the smaller of the run [r] at the top
    of the source and of the room left in the destination [dst]. *)
Definition move_amount (S : WSPState) (r : nat) (dst : list string) : nat :=
  Z.to_nat (Z.min (Z.of_nat r) (max_tube_capacity S - len dst)).

(** The tubes after [m] units of colour [c] went from [s], left with [rest],
    to [d]: the units come off [s] first and go onto [d] then. *)
Definition poured (ts : list (list string)) (s d : nat) (rest : list string)
    (m : nat) (c : string) : list (list string) :=
  let ts' := <[s := rest]> ts in
  <[d := (ts' !!! d) ++ replicate m c]> ts'.

(** [S'] is [S] after the pour from [s] to [d]: with [r] the run of the top
    colour [c] of the source and [m] the smaller of [r] and of the room left
    in the destination, the source has lost its [m] top units, the
    destination has them on top, and nothing else has changed. *)
Definition pours_top_run (S : WSPState) (s d : Z) (S' : WSPState) : Prop :=
  ∃ src dst base (r : nat) c (m : nat),
    tubes S !! Z.to_nat s = Some src ∧ tubes S !! Z.to_nat d = Some dst ∧
    last src = Some c ∧ top_run src base r c ∧
    Z.of_nat m = Z.min (Z.of_nat r) (max_tube_capacity S - len dst) ∧
    tubes S' !! Z.to_nat s = Some (base ++ replicate (r - m) c) ∧
    tubes S' !! Z.to_nat d = Some (dst ++ replicate m c) ∧
    length (tubes S') = length (tubes S) ∧
    (∀ j : nat, j ≠ Z.to_nat s → j ≠ Z.to_nat d → tubes S' !! j = tubes S !! j) ∧
    max_tube_capacity S' = max_tube_capacity S.

(** What the body of the inner loop of [get_possible_actions] adds for the
    pair [(from_idx, to_idx)]. *)
Definition candidate (S : WSPState) (from_idx to_idx : Z) : list Action :=
  if from_idx =? to_idx then []
  else if is_valid_action S (pour from_idx to_idx) then [pour from_idx to_idx]
  else [].

(** [a] comes before [b]: by the source index, then by the destination index. *)
Definition action_before (a b : Action) : Prop :=
  match a, b with
  | IsWSPAction a, IsWSPAction b =>
    from_tube a < from_tube b ∨ (from_tube a = from_tube b ∧ to_tube a < to_tube b)
  | _, _ => False
  end.

(** The canonical form of a state, which [__eq__] and [__hash__] look at. *)
Definition key (S : WSPState) : list (list string) := sorted (tubes S).

(** The states with [n] tubes that hold the units [units]. *)
Definition holds_units (n : nat) (units : list string) (S : WSPState) : Prop :=
  length (tubes S) = n ∧ concat (tubes S) ≡ₚ units.

(** All lists of length [n] over an alphabet, and all of length up to [n]. *)
Fixpoint lists_of {A} (alphabet : list A) (n : nat) : list (list A) :=
  match n with
  | O => [[]]
  | S n' => x ← alphabet; (λ l, x :: l) <$> lists_of alphabet n'
  end.

Definition lists_upto {A} (alphabet : list A) (n : nat) : list (list A) :=
  k ← seq 0 (S n); lists_of alphabet k.

(** A list with the canonical forms of all states that hold [units] in [n]
    tubes. *)
Definition state_space (n : nat) (units : list string) : list (list (list string)) :=
  lists_of (lists_upto units (length units)) n.

(** The canonical forms of the arrangements of [units] in [n] tubes, each
    once: the lists of [n] tubes that are sorted and hold the units. *)
Definition canonical_forms (n : nat) (units : list string) : list (list (list string)) :=
  remove_dups
    (filter (λ ts, sorted ts = ts ∧ concat ts ≡ₚ units) (state_space n units)).

Section paths.
Import graph_base dfs.
Context {St Act : Type} `{!State St Act}.

(** The entry [e2] of a path follows the entry [e1]: it holds an action
    enumerated at the state of [e1] and the state that action leads to. *)
Definition follows (e1 e2 : St * option Act) : Prop :=
  ∃ a, e2.2 = Some a ∧ a ∈ get_possible_actions e1.1 ∧
       apply_action e1.1 a = Returned e2.1.

Fixpoint chain (e : St * option Act) (rest : list (St * option Act)) : Prop :=
  match rest with
  | [] => True
  | e' :: rest' => follows e e' ∧ chain e' rest'
  end.

(** [reaches n s g]: [n] enumerated actions lead from [s] to [g]. *)
Inductive reaches : nat → St → St → Prop :=
| reaches_here s : reaches 0 s s
| reaches_step n s a s' g :
    a ∈ get_possible_actions s → apply_action s a = Returned s' →
    reaches n s' g → reaches (S n) s g.

(** Some goal state is at most [k] enumerated actions away from [s]. *)
Fixpoint goal_within (k : nat) (s : St) : bool :=
  is_goal s ||
  match k with
  | O => false
  | S k' =>
    existsb (λ a, match apply_action s a with
                  | Returned s' => goal_within k' s'
                  | Raised _ => false
                  end)
            (get_possible_actions s)
  end.

(** What a call of [_dfs] that returns [b] has done to the searcher. *)
Definition dfs_post (state : St) (action : option Act) (depth max_depth : Z)
    (self self' : DFSSearcher St Act) (b : bool) : Prop :=
  initial_state self' = initial_state self ∧
  (∀ x, x ∈ visited_states self → x ∈ visited_states self') ∧
  if b then
    ∃ ext g oa,
      path_to_goal self' = path_to_goal self ++ (state, action) :: ext ∧
      chain (state, action) ext ∧
      last ((state, action) :: ext) = Some (g, oa) ∧
      g ∈ visited_states self' ∧ is_goal g = true ∧
      (0 ≤ max_depth → depth ≤ max_depth → depth + len ext ≤ max_depth)
  else
    path_to_goal self' = path_to_goal self ∧
    (∀ x, x ∈ visited_states self' → is_goal x = true → x ∈ visited_states self).

(** What a call of [search] that returns [b] leaves in the searcher. *)
Definition search_post (max_depth : Z) (self self' : DFSSearcher St Act) (b : bool)
  : Prop :=
  initial_state self' = initial_state self ∧
  (b = true ↔ ∃ g, g ∈ visited_states self' ∧ is_goal g = true) ∧
  (0 ≤ max_depth → len (path_to_goal self') ≤ max_depth + 1) ∧
  if b then
    ∃ rest g oa,
      path_to_goal self' = (initial_state self, None) :: rest ∧
      chain (initial_state self, None) rest ∧
      last (path_to_goal self') = Some (g, oa) ∧ is_goal g = true ∧
      (0 ≤ max_depth → len rest ≤ max_depth)
  else path_to_goal self' = [].

(** The visited set only holds states that satisfy [Inv], no two of them
    with the same [key]. *)
Definition searcher_ok {K : Type} (key : St → K) (Inv : St → Prop)
    (self : DFSSearcher St Act) : Prop :=
  Forall Inv (visited_states self) ∧ NoDup (key <$> visited_states self).

(** A call has returned a boolean and kept the visited set in order. *)
Definition dfs_done {K : Type} (key : St → K) (Inv : St → Prop)
    (self : DFSSearcher St Act) (result : call bool) : Prop :=
  ∃ self' b, result = Some (self', Returned b) ∧ searcher_ok key Inv self' ∧
             (length (visited_states self) ≤ length (visited_states self'))%nat.
(** The members of a set, newest first: each was added when the set of the
    older ones did not contain it. *)
Fixpoint set_ok (v : list St) : Prop :=
  match v with
  | [] => True
  | x :: v' => set_contains __hash__ __eq__ v' x = false ∧ set_ok v'
  end.

(** No state of a path is one that the set of an earlier state of the path
    contains. *)
Definition path_fresh (path : list (St * option Act)) : Prop :=
  ∀ (i j : nat) e1 e2, (i < j)%nat → path !! i = Some e1 → path !! j = Some e2 →
    set_contains __hash__ __eq__ [e1.1] e2.1 = false.

(** The searcher in the middle of a search from [s0]. *)
Definition tidy (s0 : St) (self : DFSSearcher St Act) : Prop :=
  (∀ x, x ∈ visited_states self → ∃ n, reaches n s0 x) ∧
  set_ok (visited_states self) ∧
  (∀ e, e ∈ path_to_goal self → e.1 ∈ visited_states self) ∧
  path_fresh (path_to_goal self).

(** What any call of [_dfs], returning or raising, keeps and does. *)
Definition dfs_kept (s0 : St) (self self' : DFSSearcher St Act) (r : outcome bool)
  : Prop :=
  tidy s0 self' ∧
  initial_state self' = initial_state self ∧
  (∀ x, x ∈ visited_states self → x ∈ visited_states self') ∧
  (∀ x, x ∈ visited_states self' → is_goal x = true →
        x ∈ visited_states self ∨
        (r = Returned true ∧ ∃ oa, last (path_to_goal self') = Some (x, oa))).

(** Every visited state is still on the stack, or all its successors are
    visited, up to [key]. *)
Definition closed {K : Type} (key : St → K) (stack v : list St) : Prop :=
  ∀ x, x ∈ v →
    x ∈ stack ∨
    ∀ a x', a ∈ get_possible_actions x → apply_action x a = Returned x' →
            key x' ∈ key <$> v.
End paths.

(** The states with [n] tubes that hold the units [units] under the
    capacity [c]. *)
Definition in_puzzle (n : nat) (units : list string) (c : Z) (S : WSPState) : Prop :=
  holds_units n units S ∧ max_tube_capacity S = c.

(** No tube holds more units than the capacity. *)
Definition within_capacity (S : WSPState) : Prop :=
  ∀ tube, tube ∈ tubes S → len tube ≤ max_tube_capacity S.

(** States used as examples. *)
Definition overfull : WSPState :=
  {| tubes := [["R"; "R"; "R"]]; max_tube_capacity := 2 |}.
Definition solved : WSPState :=
  {| tubes := [["R"; "R"]; []; ["G"; "G"]]; max_tube_capacity := 2 |}.
Definition two_greens : WSPState :=
  {| tubes := [["G"]; ["G"]]; max_tube_capacity := 4 |}.
Definition green_pair : WSPState :=
  {| tubes := [["G"; "G"]; []]; max_tube_capacity := 4 |}.
Definition mixed : WSPState :=
  {| tubes := [["R"; "B"; "B"]; ["B"]; []]; max_tube_capacity := 4 |}.
Definition shuffled : WSPState :=
  {| tubes := [[]; ["B"]; ["R"; "B"; "B"]]; max_tube_capacity := 4 |}.
Definition unsorted : WSPState :=
  {| tubes := [["R"; "G"]; ["G"; "R"]; []]; max_tube_capacity := 2 |}.

(** The states of [tests/test_wsp_graph.py] and the puzzle of [main.py]. *)
Definition simple_state : WSPState :=
  {| tubes := [["red"]; []]; max_tube_capacity := 4 |}.
Definition complex_state : WSPState :=
  {| tubes := [["red"; "blue"]; ["blue"]; ["green"]; []]; max_tube_capacity := 4 |}.
Definition partial_goal : WSPState :=
  {| tubes := [["red"; "red"; "red"; "red"]; ["blue"; "blue"; "blue"];
               ["green"; "green"; "green"; "green"]; []];
     max_tube_capacity := 4 |}.
Definition goal_state : WSPState :=
  {| tubes := [["red"; "red"; "red"; "red"]; ["blue"; "blue"; "blue"; "blue"];
               ["green"; "green"; "green"; "green"]; []];
     max_tube_capacity := 4 |}.
Definition full_target : WSPState :=
  {| tubes := [["red"; "blue"; "blue"; "blue"]; ["blue"]]; max_tube_capacity := 4 |}.
Definition main_puzzle : WSPState :=
  {| tubes := [["赤"; "赤"; "緑"; "黄"];
               ["黄"; "緑"; "黄"; "緑"];
               ["赤"; "赤"; "黄"; "緑"]; []; []];
     max_tube_capacity := 4 |}.

(** A state two pours away from a goal, on which a search bounded by the depth 2
    fails. *)
Definition detour : WSPState :=
  {| tubes := [[]; ["A"]; ["B"]; ["A"; "B"]]; max_tube_capacity := 2 |}.

(** * The puzzle model *)

(** ** Lists, [len], [pop] *)

Lemma is_empty_true {A} (l : list A) : is_empty l = true ↔ l = [].
Proof. destruct l; simpl; split; congruence. Qed.

Lemma is_empty_false {A} (l : list A) : is_empty l = false ↔ l ≠ [].
Proof. destruct l; simpl; split; congruence. Qed.

Lemma lookup_total_index {A} `{!Inhabited A} (l : list A) (i : Z) :
  0 ≤ i < len l → l !! Z.to_nat i = Some (l !!! Z.to_nat i).
Proof.
  unfold len. intros Hi. apply list_lookup_lookup_total_lt. lia.
Qed.

Lemma lookup_index_range {A} (l : list A) (i : Z) x :
  0 ≤ i → l !! Z.to_nat i = Some x → 0 ≤ i < len l.
Proof.
  unfold len. intros Hi Hx. apply lookup_lt_Some in Hx. lia.
Qed.

Lemma pop_snoc {A} (l : list A) x : pop (l ++ [x]) = Returned (l, x).
Proof. unfold pop. by rewrite last_snoc, removelast_last. Qed.

Lemma replicate_S_snoc {A} (n : nat) (x : A) :
  replicate (S n) x = replicate n x ++ [x].
Proof. replace (S n) with (n + 1)%nat by lia. by rewrite replicate_add. Qed.

Lemma concat_insert_snoc {A} (l : list (list A)) (i : nat) x k :
  l !! i = Some x → concat (<[i := x ++ k]> l) ≡ₚ k ++ concat l.
Proof.
  intros Hi. pose proof (lookup_lt_Some _ _ _ Hi) as Hlt.
  rewrite insert_take_drop by done.
  rewrite <- (take_drop_middle l i x Hi) at 3.
  rewrite !concat_app, !concat_cons.
  rewrite (Permutation_app_comm x k).
  rewrite <- app_assoc.
  rewrite (app_assoc _ k). rewrite (Permutation_app_comm _ k).
  by rewrite <- !app_assoc.
Qed.

(** ** Legality *)

Lemma is_valid_action_true S s d :
  is_valid_action S (pour s d) = true ↔
  ∃ src dst,
    0 ≤ s ∧ 0 ≤ d ∧
    tubes S !! Z.to_nat s = Some src ∧ tubes S !! Z.to_nat d = Some dst ∧
    src ≠ [] ∧ len dst < max_tube_capacity S ∧
    (dst = [] ∨ last dst = last src).
Proof.
  unfold is_valid_action, pour. cbn [from_tube to_tube].
  destruct ((s <? 0) || (len (tubes S) <=? s) || (d <? 0) || (len (tubes S) <=? d))
    eqn:Hrange.
  - split; [discriminate|]. intros (src & dst & Hs & Hd & Hsrc & Hdst & _).
    apply (lookup_index_range _ _ _ Hs) in Hsrc.
    apply (lookup_index_range _ _ _ Hd) in Hdst.
    rewrite !orb_true_iff in Hrange. lia.
  - rewrite !orb_false_iff in Hrange.
    destruct Hrange as [[[Hs1 Hs2] Hd1] Hd2].
    assert (0 ≤ s < len (tubes S)) as Hs by lia.
    assert (0 ≤ d < len (tubes S)) as Hd by lia.
    pose proof (lookup_total_index (tubes S) s Hs) as Hsrc.
    pose proof (lookup_total_index (tubes S) d Hd) as Hdst.
    set (src := tubes S !!! Z.to_nat s) in *.
    set (dst := tubes S !!! Z.to_nat d) in *.
    destruct (is_empty src) eqn:Hes.
    { apply is_empty_true in Hes. split; [discriminate|].
      intros (src' & dst' & _ & _ & Hsrc' & _ & Hne & _). congruence. }
    apply is_empty_false in Hes.
    destruct (max_tube_capacity S <=? len dst) eqn:Hcap.
    { split; [discriminate|].
      intros (src' & dst' & _ & _ & _ & Hdst' & _ & Hlt & _).
      assert (dst' = dst) as -> by congruence. lia. }
    destruct (is_empty dst) eqn:Hed; simpl.
    { apply is_empty_true in Hed. split; [|done]. intros _.
      exists src, dst. repeat split; try done; try lia. by left. }
    apply is_empty_false in Hed.
    case_bool_decide as Hlast; simpl.
    + split; [discriminate|].
      intros (src' & dst' & _ & _ & Hsrc' & Hdst' & _ & _ & Hor).
      assert (dst' = dst) as -> by congruence.
      assert (src' = src) as -> by congruence.
      destruct Hor; congruence.
    + split; [|done]. intros _.
      exists src, dst. repeat split; try done; try lia.
      right. by destruct (decide (last dst = last src)).
Qed.

Lemma is_valid_action_is_pour S a :
  is_valid_action S a = true → ∃ s d, a = pour s d.
Proof. destruct a as [[s d]|]; [by exists s, d | done]. Qed.

(** C3. [is_valid_action] on the action [(s, d)] returns false when an index
    is out of the range of the tubes, when the source is empty, when the
    destination is at maximum capacity (it holds [max_tube_capacity] units
    or more), or when the destination is not empty and its top colour is not
    the top colour of the source; it returns true in all other cases,
    whatever room the destination has left. *)
Theorem is_valid_action_spec (S : WSPState) (s d : Z) :
  let n := len (tubes S) in
  let src := tubes S !!! Z.to_nat s in
  let dst := tubes S !!! Z.to_nat d in
  (is_valid_action S (pour s d) = false ↔
     (s < 0 ∨ n ≤ s ∨ d < 0 ∨ n ≤ d)
     ∨ src = []
     ∨ max_tube_capacity S ≤ len dst
     ∨ (dst ≠ [] ∧ last dst ≠ last src)) ∧
  (is_valid_action S (pour s d) = true ↔
     (0 ≤ s < n ∧ 0 ≤ d < n) ∧ src ≠ [] ∧ len dst < max_tube_capacity S
     ∧ (dst = [] ∨ last dst = last src)).
Proof.
  intros n src dst.
  assert (is_valid_action S (pour s d) = true ↔
     (0 ≤ s < n ∧ 0 ≤ d < n) ∧ src ≠ [] ∧ len dst < max_tube_capacity S
     ∧ (dst = [] ∨ last dst = last src)) as Htrue.
  { rewrite is_valid_action_true. split.
    - intros (src' & dst' & Hs & Hd & Hsrc & Hdst & Hne & Hlt & Hor).
      pose proof (lookup_index_range _ _ _ Hs Hsrc).
      pose proof (lookup_index_range _ _ _ Hd Hdst).
      assert (src' = src) as ->.
      { subst src. by rewrite (list_lookup_total_correct _ _ _ Hsrc). }
      assert (dst' = dst) as ->.
      { subst dst. by rewrite (list_lookup_total_correct _ _ _ Hdst). }
      done.
    - intros ([Hs Hd] & Hne & Hlt & Hor). exists src, dst.
      split_and!; try done; try lia; by apply lookup_total_index. }
  split; [|done].
  rewrite <- not_true_iff_false, Htrue. split.
  - intros Hno.
    destruct (decide (s < 0 ∨ n ≤ s ∨ d < 0 ∨ n ≤ d)) as [|Hrange]; [by left|].
    right.
    destruct (decide (src = [])) as [|Hsrc]; [by left|]. right.
    destruct (decide (max_tube_capacity S ≤ len dst)) as [|Hcap]; [by left|]. right.
    destruct (decide (dst = [])) as [Hdst|Hdst].
    + exfalso. apply Hno. split_and!; try lia; try done. by left.
    + split; [done|]. intros Heq. apply Hno.
      split_and!; try lia; try done. by right.
  - intros Hcases ([Hs Hd] & Hne & Hlt & Hor).
    destruct Hcases as [?|[?|[?|[? ?]]]]; try lia; try done.
    destruct Hor; done.
Qed.

(** ** The run at the top of a tube *)

Lemma count_loop_acc c l k : count_loop c l k = k + count_loop c l 0.
Proof.
  revert k. induction l as [|x l IH]; intros k; simpl; [lia|].
  destruct (String.eqb x c); [|lia].
  rewrite (IH (k + 1)), (IH (0 + 1)). lia.
Qed.

Lemma count_loop_run c l :
  ∃ (r : nat) rest,
    l = replicate r c ++ rest ∧ head rest ≠ Some c ∧
    count_loop c l 0 = Z.of_nat r.
Proof.
  induction l as [|x l (r & rest & Hl & Hrest & Hcount)].
  - by exists 0%nat, [].
  - simpl. destruct (String.eqb_spec x c) as [->|Hne].
    + exists (S r), rest. simpl. rewrite <- Hl. split_and!; [done..|].
      rewrite count_loop_acc, Hcount. lia.
    + exists 0%nat, (x :: l). simpl. split_and!; [done| |done]. congruence.
Qed.

Lemma top_run_any tube c :
  ∃ base r, top_run tube base r c ∧ count_loop c (reverse tube) 0 = Z.of_nat r.
Proof.
  destruct (count_loop_run c (reverse tube)) as (r & rest & Hl & Hrest & Hcount).
  exists (reverse rest), r. split_and!; [split|done].
  - rewrite <- (reverse_involutive tube), Hl, reverse_app.
    by rewrite reverse_replicate.
  - by rewrite last_reverse.
Qed.

Lemma top_run_last tube base r c :
  top_run tube base r c → (1 ≤ r)%nat → last tube = Some c.
Proof.
  intros [-> _] Hr. destruct r; [lia|].
  by rewrite replicate_S_snoc, app_assoc, last_snoc.
Qed.

Lemma top_run_positive tube base r c :
  top_run tube base r c → last tube = Some c → (1 ≤ r)%nat.
Proof.
  intros [-> Hbase] Hlast. destruct r; [|lia].
  simpl in Hlast. rewrite app_nil_r in Hlast. done.
Qed.

Lemma top_run_length tube base r c :
  top_run tube base r c → len tube = len base + Z.of_nat r.
Proof.
  intros [-> _]. unfold len. rewrite length_app, length_replicate. lia.
Qed.

Lemma top_run_more tube base r c (m : nat) :
  top_run tube base r c → top_run (tube ++ replicate m c) base (r + m) c.
Proof.
  intros [-> Hbase]. split; [|done]. by rewrite <- app_assoc, <- replicate_add.
Qed.

Lemma top_run_unique tube base1 r1 base2 r2 c :
  top_run tube base1 r1 c → top_run tube base2 r2 c → base1 = base2 ∧ r1 = r2.
Proof.
  intros [-> H1] [Heq H2]. revert r2 Heq.
  induction r1 as [|r1 IH]; intros [|r2] Heq.
  - simpl in Heq. rewrite !app_nil_r in Heq. done.
  - exfalso. apply H1. change (replicate 0 c) with (@nil string) in Heq.
    rewrite app_nil_r in Heq.
    rewrite Heq, replicate_S_snoc, app_assoc. by rewrite last_snoc.
  - exfalso. apply H2. change (replicate 0 c) with (@nil string) in Heq.
    rewrite app_nil_r in Heq.
    rewrite <- Heq, replicate_S_snoc, app_assoc. by rewrite last_snoc.
  - rewrite !replicate_S_snoc, !app_assoc in Heq.
    apply app_inj_tail in Heq as [Heq _].
    destruct (IH _ Heq) as [-> ->]. done.
Qed.

(** ** The loop that pours *)

Lemma pour_once_self (i : nat) (ts : list (list string)) src :
  ts !! i = Some src → src ≠ [] → pour_once i i ts = Returned ts.
Proof.
  intros Hi Hne. unfold pour_once.
  destruct (last src) as [c|] eqn:Hlast; [|by apply last_None in Hlast].
  apply last_Some in Hlast as [rest ->].
  rewrite (list_lookup_total_correct _ _ _ Hi), pop_snoc. simpl.
  pose proof (lookup_lt_Some _ _ _ Hi) as Hlt.
  f_equal. rewrite list_lookup_total_insert_eq by done.
  rewrite list_insert_insert_eq. by apply list_insert_id.
Qed.

Lemma pour_once_other (i j : nat) (ts : list (list string)) rest c dst :
  i ≠ j → ts !! i = Some (rest ++ [c]) → ts !! j = Some dst →
  pour_once i j ts = Returned (<[j := dst ++ [c]]> (<[i := rest]> ts)).
Proof.
  intros Hij Hi Hj. unfold pour_once.
  rewrite (list_lookup_total_correct _ _ _ Hi), pop_snoc. simpl.
  f_equal. f_equal.
  rewrite list_lookup_total_insert_ne by done.
  by rewrite (list_lookup_total_correct _ _ _ Hj).
Qed.

Lemma pour_loop_self (m i : nat) (ts : list (list string)) src :
  ts !! i = Some src → src ≠ [] → pour_loop m i i ts = Returned ts.
Proof.
  intros Hi Hne. induction m as [|m IH]; [done|].
  simpl. by rewrite (pour_once_self _ _ _ Hi Hne).
Qed.

Lemma pour_loop_other (m i j : nat) (ts : list (list string)) base moved dst :
  i ≠ j → ts !! i = Some (base ++ moved) → ts !! j = Some dst →
  length moved = m →
  pour_loop m i j ts = Returned (<[j := dst ++ reverse moved]> (<[i := base]> ts)).
Proof.
  intros Hij. revert ts moved dst.
  induction m as [|m IH]; intros ts moved dst Hi Hj Hlen.
  - destruct moved; [|done]. simpl. rewrite app_nil_r in *.
    f_equal. rewrite !list_insert_id; try done.
    by rewrite list_lookup_insert_ne.
  - destruct (last moved) as [c|] eqn:Hlast;
      [|apply last_None in Hlast; by subst].
    apply last_Some in Hlast as [moved' ->].
    rewrite length_app in Hlen. simpl in Hlen.
    rewrite app_assoc in Hi. simpl.
    rewrite (pour_once_other _ _ _ _ _ _ Hij Hi Hj). simpl.
    pose proof (lookup_lt_Some _ _ _ Hi) as Hlti.
    pose proof (lookup_lt_Some _ _ _ Hj) as Hltj.
    rewrite (IH _ moved' (dst ++ [c])).
    + f_equal. rewrite reverse_snoc, <- app_assoc. simpl.
      rewrite (list_insert_insert_ne _ i j) by done.
      by rewrite !list_insert_insert_eq.
    + rewrite list_lookup_insert_ne by done.
      rewrite list_lookup_insert_eq; [done|done].
    + rewrite list_lookup_insert_eq; [done|]. by rewrite length_insert.
    + lia.
Qed.

Lemma pour_loop_poured (ts : list (list string)) (s d : nat) base (r m : nat) c :
  ts !! s = Some (base ++ replicate r c) → (d < length ts)%nat →
  (1 ≤ r)%nat → (m ≤ r)%nat →
  pour_loop m s d ts = Returned (poured ts s d (base ++ replicate (r - m) c) m c).
Proof.
  intros Hs Hd Hr Hm. unfold poured.
  pose proof (lookup_lt_Some _ _ _ Hs) as Hlts.
  destruct (decide (s = d)) as [<-|Hsd].
  - rewrite (pour_loop_self _ _ _ _ Hs).
    + f_equal. rewrite list_lookup_total_insert_eq by done.
      rewrite list_insert_insert_eq, <- app_assoc, <- replicate_add.
      replace (r - m + m)%nat with r by lia. by rewrite list_insert_id.
    + destruct r; [lia|]. rewrite replicate_S_snoc, app_assoc.
      intros Hnil. by destruct (base ++ replicate r c).
  - destruct (lookup_lt_is_Some_2 _ _ Hd) as [dst Hdst].
    rewrite (pour_loop_other m s d ts (base ++ replicate (r - m) c) (replicate m c) dst);
      try done.
    + f_equal. rewrite reverse_replicate. f_equal.
      rewrite list_lookup_total_insert_ne by done.
      by rewrite (list_lookup_total_correct _ _ _ Hdst).
    + rewrite <- app_assoc, <- replicate_add.
      by replace (r - m + m)%nat with r by lia.
    + by rewrite length_replicate.
Qed.

Lemma poured_length ts s d rest m c : length (poured ts s d rest m c) = length ts.
Proof. unfold poured. by rewrite !length_insert. Qed.

Lemma poured_lookup_other ts s d rest m c (j : nat) :
  j ≠ s → j ≠ d → poured ts s d rest m c !! j = ts !! j.
Proof. intros. unfold poured. by rewrite !list_lookup_insert_ne. Qed.

Lemma poured_self ts s rest m c :
  ts !! s = Some (rest ++ replicate m c) → poured ts s s rest m c = ts.
Proof.
  intros Hs. pose proof (lookup_lt_Some _ _ _ Hs). unfold poured.
  rewrite list_lookup_total_insert_eq by done.
  rewrite list_insert_insert_eq. by apply list_insert_id.
Qed.

Lemma poured_lookup_source ts s d rest m c :
  s ≠ d → (s < length ts)%nat → poured ts s d rest m c !! s = Some rest.
Proof.
  intros. unfold poured. rewrite list_lookup_insert_ne by done.
  by apply list_lookup_insert_eq.
Qed.

Lemma poured_lookup_destination ts s d rest m c dst :
  s ≠ d → ts !! d = Some dst →
  poured ts s d rest m c !! d = Some (dst ++ replicate m c).
Proof.
  intros Hsd Hd. pose proof (lookup_lt_Some _ _ _ Hd). unfold poured.
  rewrite list_lookup_insert_eq by (by rewrite length_insert).
  rewrite list_lookup_total_insert_ne by done.
  by rewrite (list_lookup_total_correct _ _ _ Hd).
Qed.

Lemma poured_concat ts s d rest m c :
  ts !! s = Some (rest ++ replicate m c) → (d < length ts)%nat →
  concat (poured ts s d rest m c) ≡ₚ concat ts.
Proof.
  intros Hs Hd. pose proof (lookup_lt_Some _ _ _ Hs) as Hlt.
  unfold poured. set (ts' := <[s:=rest]> ts).
  assert (ts' !! s = Some rest) as Hs' by (by apply list_lookup_insert_eq).
  assert (<[s := rest ++ replicate m c]> ts' = ts) as Hts.
  { unfold ts'. rewrite list_insert_insert_eq. by rewrite list_insert_id. }
  assert (d < length ts')%nat as Hd' by (unfold ts'; by rewrite length_insert).
  destruct (lookup_lt_is_Some_2 _ _ Hd') as [dst Hdst].
  rewrite (list_lookup_total_correct _ _ _ Hdst).
  rewrite (concat_insert_snoc _ _ _ _ Hdst).
  clearbody ts'. subst ts. by rewrite (concat_insert_snoc _ _ _ _ Hs').
Qed.

(** ** Applying an action *)

Lemma apply_action_call_valid S s d :
  is_valid_action S (pour s d) = true →
  ∃ src dst base r c,
    tubes S !! Z.to_nat s = Some src ∧ tubes S !! Z.to_nat d = Some dst ∧
    last src = Some c ∧ top_run src base r c ∧
    (1 ≤ move_amount S r dst ≤ r)%nat ∧
    apply_action_call S (pour s d) =
      (S, Returned {| tubes := poured (tubes S) (Z.to_nat s) (Z.to_nat d)
                                 (base ++ replicate (r - move_amount S r dst) c)
                                 (move_amount S r dst) c;
                      max_tube_capacity := max_tube_capacity S |}).
Proof.
  intros Hvalid.
  pose proof Hvalid as Hfacts. apply is_valid_action_true in Hfacts.
  destruct Hfacts as (src & dst & Hs & Hd & Hsrc & Hdst & Hne & Hlt & _).
  destruct (last src) as [c|] eqn:Hlast; [|by apply last_None in Hlast].
  destruct (top_run_any src c) as (base & r & Hrun & Hcount).
  pose proof (top_run_positive _ _ _ _ Hrun Hlast) as Hr.
  exists src, dst, base, r, c.
  assert (1 ≤ move_amount S r dst ≤ r)%nat as Hm by (unfold move_amount; lia).
  split_and!; try done; try lia.
  unfold apply_action_call, pour in *. rewrite Hvalid. cbn [negb from_tube to_tube].
  unfold deepcopy.
  rewrite (list_lookup_total_correct _ _ _ Hsrc), (list_lookup_total_correct _ _ _ Hdst).
  unfold top. rewrite Hlast. cbn [mbind outcome_bind]. rewrite Hcount.
  fold (move_amount S r dst).
  destruct Hrun as [Hrun _].
  rewrite (pour_loop_poured (tubes S) _ _ base r (move_amount S r dst) c);
    try done; try lia.
  - by rewrite <- Hrun.
  - by apply lookup_lt_Some in Hdst.
Qed.

Lemma top_run_split src base r c (m : nat) :
  top_run src base r c → (m ≤ r)%nat →
  src = (base ++ replicate (r - m) c) ++ replicate m c.
Proof.
  intros [-> _] Hm. rewrite <- app_assoc, <- replicate_add.
  by replace (r - m + m)%nat with r by lia.
Qed.

Lemma apply_action_distinct S s d :
  is_valid_action S (pour s d) = true → s ≠ d →
  ∃ S', apply_action_call S (pour s d) = (S, Returned S') ∧ pours_top_run S s d S'.
Proof.
  intros Hvalid Hsd.
  pose proof Hvalid as Hfacts. apply is_valid_action_true in Hfacts.
  destruct Hfacts as (? & ? & Hs & Hd & _).
  destruct (apply_action_call_valid _ _ _ Hvalid)
    as (src & dst & base & r & c & Hsrc & Hdst & Hlast & Hrun & Hm & Hcall).
  eexists. split; [exact Hcall|].
  exists src, dst, base, r, c, (move_amount S r dst). cbn [tubes max_tube_capacity].
  assert (Z.to_nat s ≠ Z.to_nat d) by lia.
  pose proof (lookup_lt_Some _ _ _ Hsrc).
  split_and!; try done.
  - unfold move_amount in *. lia.
  - by apply poured_lookup_source.
  - by apply poured_lookup_destination.
  - apply poured_length.
  - intros j ??. by apply poured_lookup_other.
Qed.

Lemma apply_action_same S s :
  is_valid_action S (pour s s) = true →
  apply_action_call S (pour s s) = (S, Returned S).
Proof.
  intros Hvalid.
  destruct (apply_action_call_valid _ _ _ Hvalid)
    as (src & dst & base & r & c & Hsrc & Hdst & Hlast & Hrun & Hm & ->).
  rewrite poured_self; [by destruct S|].
  rewrite Hsrc. f_equal. apply top_run_split; [done|lia].
Qed.

Lemma apply_action_call_units S a :
  is_valid_action S a = true →
  ∃ S', apply_action_call S a = (S, Returned S') ∧
        length (tubes S') = length (tubes S) ∧
        concat (tubes S') ≡ₚ concat (tubes S).
Proof.
  intros Hvalid.
  destruct (is_valid_action_is_pour _ _ Hvalid) as (s & d & ->).
  destruct (apply_action_call_valid _ _ _ Hvalid)
    as (src & dst & base & r & c & Hsrc & Hdst & Hlast & Hrun & Hm & Hcall).
  eexists. split; [exact Hcall|]. cbn [tubes].
  split; [apply poured_length|].
  apply poured_concat.
  - rewrite Hsrc. f_equal. apply top_run_split; [done|lia].
  - by apply lookup_lt_Some in Hdst.
Qed.

(** C7. [apply_action] raises exactly when the action is not valid in the
    state (it fails [is_valid_action], which also rejects what is no
    [WSPAction]), and returns a state exactly when it is valid; in either
    case the call leaves the receiver as it was. *)
Theorem apply_action_raises_iff (S : WSPState) (a : Action) :
  (apply_action_call S a).1 = S ∧
  ((∃ e, apply_action S a = Raised e) ↔ is_valid_action S a = false) ∧
  ((∃ S', apply_action S a = Returned S') ↔ is_valid_action S a = true).
Proof.
  unfold apply_action.
  destruct (is_valid_action S a) eqn:Hvalid.
  - destruct (apply_action_call_units _ _ Hvalid) as (S' & -> & _).
    simpl. split_and!; [done|split|split]; try done.
    + by intros [e ?].
    + eauto.
  - assert (∃ e, apply_action_call S a = (S, Raised e)) as [e ->].
    { destruct a as [[s d]|]; unfold apply_action_call; [|eauto].
      rewrite Hvalid. simpl. eauto. }
    simpl. split_and!; [done|split|split]; try done.
    + eauto.
    + by intros [S' ?].
Qed.

(** X17. For an action [(s, d)] valid in [S] with [s] and [d] distinct,
    [apply_action] returns a new state in which exactly [min (run, headroom)]
    units have gone from the top of the source to the top of the destination,
    all other tubes and the capacity being as in [S]. *)
Theorem apply_action_pours (S : WSPState) (s d : Z) :
  is_valid_action S (pour s d) = true → s ≠ d →
  ∃ S', apply_action S (pour s d) = Returned S' ∧ pours_top_run S s d S'.
Proof.
  intros Hvalid Hsd. unfold apply_action.
  destruct (apply_action_distinct _ _ _ Hvalid Hsd) as (S' & -> & Hpours).
  by exists S'.
Qed.

Lemma apply_action_pours_witness :
  ∃ S', apply_action mixed (pour 0 1) = Returned S' ∧ pours_top_run mixed 0 1 S'.
Proof. apply (apply_action_pours mixed 0 1); [reflexivity|lia]. Defined.

(** C4. The action [(0, 0)] on the tubes [[red]] and [[]] with the capacity
    4. [get_possible_actions] passes over the pairs of equal indices and
    lists [(0, 1)] only, but [is_valid_action], which has no such test,
    accepts [(0, 0)]. The run at the top of the source is one unit and the
    destination, the same tube, has room for three, so that one unit is to
    leave the source; [apply_action] returns the state with every tube as it
    was, each unit popped being appended to the list it came from. *)
Theorem self_pour_moves_nothing :
  get_possible_actions simple_state = [pour 0 1] ∧
  is_valid_action simple_state (pour 0 0) = true ∧
  tubes simple_state !! 0%nat = Some ["red"] ∧
  top_run ["red"] [] 1 "red" ∧
  move_amount simple_state 1 ["red"] = 1%nat ∧
  apply_action simple_state (pour 0 0) = Returned simple_state.
Proof. by split_and!. Qed.

(** C10. A valid action keeps the number of tubes and the units that all
    tubes hold together: none is made, none is lost. *)
Theorem apply_action_preserves_units (S : WSPState) (a : Action) :
  is_valid_action S a = true →
  ∃ S', apply_action S a = Returned S' ∧
        length (tubes S') = length (tubes S) ∧
        concat (tubes S') ≡ₚ concat (tubes S).
Proof.
  intros Hvalid. unfold apply_action.
  destruct (apply_action_call_units _ _ Hvalid) as (S' & -> & Hlen & Hperm).
  by exists S'.
Qed.

Lemma apply_action_preserves_units_witness :
  ∃ S', apply_action mixed (pour 0 1) = Returned S' ∧
        length (tubes S') = length (tubes mixed) ∧
        concat (tubes S') ≡ₚ concat (tubes mixed).
Proof. exact (apply_action_preserves_units mixed (pour 0 1) eq_refl). Defined.

(** ** The goal test *)

Lemma size_set_of_uniform tube : (size (set_of tube) ≤ 1)%nat ↔ uniform tube.
Proof.
  unfold set_of, uniform. split.
  - intros Hsize x y Hx Hy.
    destruct (decide (x = y)) as [|Hne]; [done|exfalso].
    assert (({[x]} ∪ {[y]} : gset string) ⊆ list_to_set tube) as Hsub.
    { apply union_subseteq. split; apply singleton_subseteq_l;
        by apply elem_of_list_to_set. }
    apply subseteq_size in Hsub.
    rewrite size_union, !size_singleton in Hsub; [lia|].
    by apply disjoint_singleton_l, not_elem_of_singleton.
  - intros Huni. destruct tube as [|x tube].
    { rewrite list_to_set_nil, size_empty. lia. }
    assert ((list_to_set (x :: tube) : gset string) ⊆ {[x]}) as Hsub.
    { intros y Hy. apply elem_of_list_to_set in Hy. apply elem_of_singleton.
      apply Huni; [done|apply list_elem_of_here]. }
    apply subseteq_size in Hsub. by rewrite size_singleton in Hsub.
Qed.

Lemma is_goal_loop_true capacity ts :
  is_goal_loop capacity ts = true ↔
  ∀ tube, tube ∈ ts → tube = [] ∨ (capacity ≤ len tube ∧ uniform tube).
Proof.
  induction ts as [|tube ts IH]; simpl.
  - split; [|done]. intros _ tube Hin. by apply elem_of_nil in Hin.
  - assert (∀ P : list string → Prop,
              (∀ t, t ∈ tube :: ts → P t) ↔ P tube ∧ ∀ t, t ∈ ts → P t) as Hcons.
    { intros P. split.
      - intros H. split; [apply H; left|intros t Ht; apply H; by right].
      - intros [H1 H2] t Ht. apply elem_of_cons in Ht as [->|Ht]; auto. }
    rewrite Hcons, <- IH. clear Hcons IH.
    destruct (is_empty tube) eqn:Hempty.
    { apply is_empty_true in Hempty.
      split; [intros ?; split; [by left|done] | by intros [_ ?]]. }
    apply is_empty_false in Hempty.
    destruct (1 <? Z.of_nat (size (set_of tube))) eqn:Hsize.
    { split; [done|]. intros [[?|[_ Huni]] _]; [done|].
      apply size_set_of_uniform in Huni. lia. }
    assert (uniform tube) as Huni by (apply size_set_of_uniform; lia).
    assert (0 < len tube) by (destruct tube; [done|unfold len; simpl; lia]).
    destruct (len tube <? capacity) eqn:Hfull; simpl.
    + replace (0 <? len tube) with true by lia.
      split; [done|]. intros [[?|[? _]] _]; [done|lia].
    + split; [|by intros [_ ?]]. intros ->. split; [|done].
      right. split; [lia|done].
Qed.

(** C2, amended. [is_goal] returns true iff every tube is empty or holds at
    least [max_tube_capacity] units, all of one colour; where no tube holds
    more units than the capacity, that is: iff every tube is empty or holds
    exactly [max_tube_capacity] units, all of one colour. A tube that is
    neither empty nor full makes [is_goal] false. *)
Theorem is_goal_full_uniform (S : WSPState) :
  (is_goal S = true ↔
   ∀ tube, tube ∈ tubes S →
     tube = [] ∨ (max_tube_capacity S ≤ len tube ∧ uniform tube)) ∧
  ((∀ tube, tube ∈ tubes S → len tube ≤ max_tube_capacity S) →
   (is_goal S = true ↔
    ∀ tube, tube ∈ tubes S →
      tube = [] ∨ (len tube = max_tube_capacity S ∧ uniform tube))) ∧
  (∀ tube, tube ∈ tubes S → tube ≠ [] → len tube < max_tube_capacity S →
     is_goal S = false).
Proof.
  unfold is_goal. split_and!.
  - apply is_goal_loop_true.
  - intros Hcap. rewrite is_goal_loop_true. split; intros H tube Hin.
    + destruct (H tube Hin) as [|[??]]; [by left|right].
      specialize (Hcap tube Hin). split; [lia|done].
    + destruct (H tube Hin) as [|[??]]; [by left|right]. split; [lia|done].
  - intros tube Hin Hne Hlt. apply not_true_iff_false.
    rewrite is_goal_loop_true.
    intros H. destruct (H tube Hin) as [|[??]]; [done|lia].
Qed.

Lemma is_goal_full_uniform_witness :
  (∀ tube, tube ∈ tubes solved → len tube ≤ max_tube_capacity solved) ∧
  (is_goal solved = true ↔
   ∀ tube, tube ∈ tubes solved →
     tube = [] ∨ (len tube = max_tube_capacity solved ∧ uniform tube)).
Proof.
  assert (∀ tube, tube ∈ tubes solved → len tube ≤ max_tube_capacity solved) as Hcap.
  { apply Forall_forall. repeat constructor; by vm_compute. }
  split; [exact Hcap|].
  exact (proj1 (proj2 (is_goal_full_uniform solved)) Hcap).
Defined.

(** C2 as stated fails on a state with a tube over the capacity: three units
    of one colour in a tube of capacity two pass the goal test, and their
    number is not the capacity. *)
Lemma is_goal_overfull_counterexample :
  ¬ (is_goal overfull = true ↔
     ∀ tube, tube ∈ tubes overfull →
       tube = [] ∨ (len tube = max_tube_capacity overfull ∧ uniform tube)).
Proof.
  intros [H _]. specialize (H eq_refl ["R"; "R"; "R"]).
  destruct H as [H|[H _]]; [apply list_elem_of_here|done|done].
Qed.

(** ** Enumeration of the actions *)

Lemma foldl_append {A B} (f : B → list A) (l : list B) (acc : list A) :
  foldl (λ acc x, acc ++ f x) acc l = acc ++ (l ≫= f).
Proof.
  revert acc. induction l as [|x l IH]; intros acc; simpl.
  - by rewrite app_nil_r.
  - by rewrite IH, app_assoc.
Qed.

Lemma foldl_ext_all {A B} (f g : A → B → A) (l : list B) (a : A) :
  (∀ a x, f a x = g a x) → foldl f a l = foldl g a l.
Proof.
  intros Hfg. revert a. induction l as [|x l IH]; intros a; simpl; [done|].
  by rewrite Hfg, IH.
Qed.

Lemma get_possible_actions_bind S :
  get_possible_actions S =
  from_idx ← range (len (tubes S));
  to_idx ← range (len (tubes S));
  candidate S from_idx to_idx.
Proof.
  unfold get_possible_actions.
  rewrite <- (app_nil_l (_ ≫= _)), <- foldl_append.
  apply foldl_ext_all. intros actions from_idx.
  rewrite <- foldl_append. apply foldl_ext_all. intros acc to_idx.
  unfold candidate, pour.
  destruct (from_idx =? to_idx); [by rewrite app_nil_r|].
  destruct (is_valid_action S _); [done|by rewrite app_nil_r].
Qed.

Lemma StronglySorted_bind {A B} (R1 : relation A) (R2 : relation B)
    (f : A → list B) (l : list A) :
  StronglySorted R1 l →
  (∀ x, x ∈ l → StronglySorted R2 (f x)) →
  (∀ x y a b, R1 x y → a ∈ f x → b ∈ f y → R2 a b) →
  StronglySorted R2 (l ≫= f).
Proof.
  intros Hl Hf Hcross. induction Hl as [|x l Hl IH Hx]; simpl; [constructor|].
  apply StronglySorted_app_2.
  - intros a b Ha Hb. apply list_elem_of_bind in Hb as [y [Hb Hy]].
    apply (Hcross x y); [|done..].
    rewrite Forall_forall in Hx. by apply Hx.
  - apply Hf. left.
  - apply IH. intros y Hy. apply Hf. by right.
Qed.

Lemma StronglySorted_NoDup {A} (R : relation A) (l : list A) :
  StronglySorted R l → (∀ x, ¬ R x x) → NoDup l.
Proof.
  intros Hsorted Hirr. induction Hsorted as [|a l _ IH Ha]; constructor; [|done].
  intros Hin. rewrite Forall_forall in Ha. by apply (Hirr a), Ha.
Qed.

Lemma StronglySorted_range n : StronglySorted Z.lt (range n).
Proof.
  unfold range. generalize 0 as m.
  induction (Z.to_nat n) as [|k IH] eqn:Hk in n |- *; intros m.
  - rewrite seqZ_nil by lia. constructor.
  - rewrite seqZ_cons by lia. constructor.
    + apply IH. lia.
    + apply Forall_seqZ. lia.
Qed.

Lemma elem_of_candidate S i j a :
  a ∈ candidate S i j ↔ a = pour i j ∧ i ≠ j ∧ is_valid_action S a = true.
Proof.
  unfold candidate. destruct (Z.eqb_spec i j) as [->|Hij].
  - split; [intros Hin; by apply elem_of_nil in Hin|]. by intros (_ & ? & _).
  - destruct (is_valid_action S (pour i j)) eqn:Hvalid.
    + rewrite list_elem_of_singleton. split; [by intros ->|by intros [-> _]].
    + split; [intros Hin; by apply elem_of_nil in Hin|].
      intros (-> & _ & ?). congruence.
Qed.

Lemma candidate_sorted S i :
  StronglySorted action_before (range (len (tubes S)) ≫= candidate S i).
Proof.
  apply (StronglySorted_bind Z.lt); [apply StronglySorted_range| |].
  - intros j _. unfold candidate.
    destruct (i =? j); [constructor|].
    destruct (is_valid_action S _); repeat constructor.
  - intros j1 j2 a b Hlt Ha Hb.
    apply elem_of_candidate in Ha as (-> & _ & _).
    apply elem_of_candidate in Hb as (-> & _ & _).
    simpl. by right.
Qed.

Lemma elem_of_get_possible_actions S a :
  a ∈ get_possible_actions S ↔
  ∃ s d, a = pour s d ∧ s ≠ d ∧ is_valid_action S a = true.
Proof.
  rewrite get_possible_actions_bind, list_elem_of_bind. split.
  - intros (i & Hin & Hi). apply list_elem_of_bind in Hin as [j [Ha Hj]].
    apply elem_of_candidate in Ha. eauto.
  - intros (s & d & -> & Hsd & Hvalid).
    pose proof Hvalid as Hfacts. apply is_valid_action_true in Hfacts.
    destruct Hfacts as (src & dst & Hs & Hd & Hsrc & Hdst & _).
    pose proof (lookup_index_range _ _ _ Hs Hsrc).
    pose proof (lookup_index_range _ _ _ Hd Hdst).
    exists s. split; [|apply elem_of_seqZ; lia].
    apply list_elem_of_bind. exists d. split; [|apply elem_of_seqZ; lia].
    by apply elem_of_candidate.
Qed.

Lemma get_possible_actions_sorted S :
  StronglySorted action_before (get_possible_actions S).
Proof.
  rewrite get_possible_actions_bind.
  apply (StronglySorted_bind Z.lt); [apply StronglySorted_range| |].
  - intros i _. apply candidate_sorted.
  - intros i1 i2 a b Hlt Ha Hb.
    apply list_elem_of_bind in Ha as [j1 [Ha _]].
    apply list_elem_of_bind in Hb as [j2 [Hb _]].
    apply elem_of_candidate in Ha as (-> & _ & _).
    apply elem_of_candidate in Hb as (-> & _ & _).
    simpl. by left.
Qed.

(** C9. [get_possible_actions] holds an action iff it is the action of an
    ordered pair of distinct tube indices that [is_valid_action] accepts; it
    holds each of them once, by source index ascending, then by destination
    index ascending. *)
Theorem get_possible_actions_spec (S : WSPState) :
  (∀ a, a ∈ get_possible_actions S ↔
        ∃ s d, a = pour s d ∧ s ≠ d ∧ is_valid_action S a = true) ∧
  (∀ s d, pour s d ∈ get_possible_actions S →
          0 ≤ s < len (tubes S) ∧ 0 ≤ d < len (tubes S)) ∧
  NoDup (get_possible_actions S) ∧
  StronglySorted action_before (get_possible_actions S).
Proof.
  split_and!.
  - apply elem_of_get_possible_actions.
  - intros s d Hin. apply elem_of_get_possible_actions in Hin
      as (s' & d' & Heq & _ & Hvalid).
    apply is_valid_action_true in Hvalid
      as (src & dst & Hs & Hd & Hsrc & Hdst & _).
    injection Heq as -> ->.
    split; by eapply lookup_index_range.
  - apply (StronglySorted_NoDup _ _ (get_possible_actions_sorted S)).
    intros [[s d]|]; simpl; lia.
  - apply get_possible_actions_sorted.
Qed.

(** ** Canonical equality *)

Lemma str_lt_le x y : str_lt x y = negb (String.leb y x).
Proof.
  unfold str_lt, String.ltb, String.leb. rewrite (String.compare_antisym y x).
  by destruct (String.compare x y).
Qed.

Lemma str_lt_false x y : str_lt x y = false ↔ String.le y x.
Proof.
  rewrite str_lt_le. unfold String.le.
  destruct (String.leb y x); simpl; split; done.
Qed.

#[global] Instance sort_le_antisym : AntiSymm (=) sort_le.
Proof.
  unfold sort_le. intros a. induction a as [|x a IH]; intros [|y b] Hab Hba;
    simpl in *; try done.
  rewrite (String.eqb_sym y x) in Hab.
  destruct (String.eqb_spec x y) as [->|Hne].
  - f_equal. by apply IH.
  - apply str_lt_false in Hab, Hba. destruct Hne.
    by apply (anti_symm String.le).
Qed.

#[global] Instance sort_le_total : Total sort_le.
Proof.
  unfold sort_le. intros a. induction a as [|x a IH]; intros [|y b];
    simpl; auto.
  rewrite (String.eqb_sym y x).
  destruct (String.eqb_spec x y) as [->|Hne]; [apply IH|].
  rewrite !str_lt_false. apply (total String.le).
Qed.

#[global] Instance sort_le_trans : Transitive sort_le.
Proof.
  unfold sort_le. intros a. induction a as [|x a IH]; intros [|y b] [|z c] Hab Hbc;
    simpl in *; try done.
  destruct (String.eqb_spec y x) as [Hyx|Hyx];
    destruct (String.eqb_spec z y) as [Hzy|Hzy].
  - subst. rewrite String.eqb_refl. by apply (IH b).
  - subst y. by destruct (String.eqb_spec z x).
  - subst z. by destruct (String.eqb_spec y x).
  - apply str_lt_false in Hab, Hbc.
    assert (String.le x z) as Hxz by (by etrans).
    destruct (String.eqb_spec z x) as [->|_].
    + destruct Hzy. by apply (anti_symm String.le).
    + by apply str_lt_false.
Qed.

Lemma sorted_Sorted l : Sorted sort_le (sorted l).
Proof. apply (Sorted_merge_sort sort_le). Qed.

Lemma sorted_Permutation l : sorted l ≡ₚ l.
Proof. apply merge_sort_Permutation. Qed.

Lemma sorted_eq_iff l1 l2 : sorted l1 = sorted l2 ↔ l1 ≡ₚ l2.
Proof.
  split.
  - intros Heq. by rewrite <- (sorted_Permutation l1), Heq, sorted_Permutation.
  - intros Hperm. apply (Sorted_unique sort_le); try apply sorted_Sorted.
    by rewrite !sorted_Permutation.
Qed.

Lemma eq_true_iff S1 S2 : __eq__ S1 S2 = true ↔ tubes S1 ≡ₚ tubes S2.
Proof.
  unfold __eq__. rewrite <- sorted_eq_iff.
  destruct (len (tubes S1) =? len (tubes S2)) eqn:Hlen; simpl.
  - by rewrite bool_decide_eq_true.
  - split; [done|]. intros Heq. apply sorted_eq_iff, Permutation_length in Heq.
    unfold len in Hlen. lia.
Qed.

Section canonical.
Variable hash : list (list string) → Z.

(** C5. Two states are equal iff they have as many tubes and their tubes,
    sorted, are the same lists, that is iff the tubes of one are the tubes of
    the other in some order; equal states have equal hashes. States built
    from the same tubes in another order are equal and hash equally. *)
Theorem eq_hash_canonical (S1 S2 : WSPState) :
  (__eq__ S1 S2 = true ↔
   length (tubes S1) = length (tubes S2) ∧ sorted (tubes S1) = sorted (tubes S2)) ∧
  (__eq__ S1 S2 = true ↔ tubes S1 ≡ₚ tubes S2) ∧
  (__eq__ S1 S2 = true → __hash__ hash S1 = __hash__ hash S2) ∧
  (tubes S1 ≡ₚ tubes S2 →
   __eq__ S1 S2 = true ∧ __hash__ hash S1 = __hash__ hash S2) ∧
  Sorted sort_le (sorted (tubes S1)) ∧ sorted (tubes S1) ≡ₚ tubes S1.
Proof.
  assert (tubes S1 ≡ₚ tubes S2 → __hash__ hash S1 = __hash__ hash S2) as Hhash.
  { intros Hperm. apply sorted_eq_iff in Hperm. unfold __hash__. by rewrite Hperm. }
  split_and!.
  - rewrite eq_true_iff, sorted_eq_iff. split; [|by intros [_ ?]].
    intros Hperm. split; [by apply Permutation_length|done].
  - apply eq_true_iff.
  - intros Heq. apply eq_true_iff in Heq. by apply Hhash.
  - intros Hperm. split; [by apply eq_true_iff|by apply Hhash].
  - apply sorted_Sorted.
  - apply sorted_Permutation.
Qed.
End canonical.

Lemma eq_hash_canonical_witness :
  tubes mixed ≡ₚ tubes shuffled ∧
  __eq__ mixed shuffled = true ∧
  __hash__ (λ _, 0) mixed = __hash__ (λ _, 0) shuffled.
Proof.
  assert (tubes mixed ≡ₚ tubes shuffled) as Hperm.
  { simpl. etrans; [apply Permutation_swap|].
    etrans; [apply perm_skip, Permutation_swap|]. apply Permutation_swap. }
  split; [exact Hperm|].
  exact (proj1 (proj2 (proj2 (proj2 (eq_hash_canonical (λ _, 0) mixed shuffled)))) Hperm).
Defined.

(** ** Pouring back *)

(** C8, amended. Let [(s, d)] be valid in [S] and the reverse action
    [(d, s)] be valid in the state that [apply_action] returns. If in [S]
    the destination is empty and the source holds no more units than the
    capacity, or the source is full to the capacity, or [s = d], then applying
    the reverse action gives back the tubes of [S], hence a state equal to [S]
    under canonical equality. *)
Theorem pour_back_restores (S S' : WSPState) (s d : Z) (src dst : list string) :
  is_valid_action S (pour s d) = true →
  tubes S !! Z.to_nat s = Some src →
  tubes S !! Z.to_nat d = Some dst →
  (dst = [] ∧ len src ≤ max_tube_capacity S)
    ∨ len src = max_tube_capacity S ∨ s = d →
  apply_action S (pour s d) = Returned S' →
  is_valid_action S' (pour d s) = true →
  ∃ S'', apply_action S' (pour d s) = Returned S'' ∧
         tubes S'' = tubes S ∧
         max_tube_capacity S'' = max_tube_capacity S ∧
         __eq__ S'' S = true.
Proof.
  intros Hvalid Hsrc Hdst Hcond Happly Hback. unfold apply_action in *.
  destruct (decide (s = d)) as [<-|Hsd].
  { rewrite (apply_action_same _ _ Hvalid) in Happly. simpl in Happly.
    injection Happly as <-. rewrite (apply_action_same _ _ Hvalid).
    exists S. split_and!; try done. by apply eq_true_iff. }
  pose proof Hvalid as Hfacts. apply is_valid_action_true in Hfacts.
  destruct Hfacts as (src0 & dst0 & Hs & Hd & Hsrc0 & Hdst0 & _ & Hroom & _).
  assert (src0 = src) as -> by congruence.
  assert (dst0 = dst) as -> by congruence.
  clear Hsrc0 Hdst0.
  assert (Z.to_nat s ≠ Z.to_nat d) as Hnsd by lia.
  destruct (apply_action_distinct _ _ _ Hvalid Hsd) as (S1 & Hcall & Hpours).
  rewrite Hcall in Happly. simpl in Happly. injection Happly as ->. clear Hcall.
  destruct Hpours as (src0 & dst0 & base & r & c & m & Hsrc0 & Hdst0 & Hlast & Hrun
                      & Hm & Hsrc' & Hdst' & Hlen & Hother & Hcap).
  assert (src0 = src) as -> by congruence.
  assert (dst0 = dst) as -> by congruence.
  clear Hsrc0 Hdst0.
  pose proof (top_run_positive _ _ _ _ Hrun Hlast) as Hr.
  assert (1 ≤ m)%nat as Hm1 by lia.
  assert (d ≠ s) as Hds by done.
  destruct (apply_action_distinct _ _ _ Hback Hds) as (S'' & Hcall & Hpours).
  rewrite Hcall. clear Hcall.
  destruct Hpours as (srcR & dstR & baseR & rR & cR & mR & HsrcR & HdstR & HlastR
                      & HrunR & HmR & HsrcR' & HdstR' & HlenR & HotherR & HcapR).
  assert (srcR = dst ++ replicate m c) as -> by congruence.
  assert (dstR = base ++ replicate (r - m) c) as -> by congruence.
  (* the run at the top of the destination after the pour *)
  assert (cR = c) as ->.
  { assert (last (dst ++ replicate m c) = Some c) as Hlast'.
    { destruct m; [lia|]. by rewrite replicate_S_snoc, app_assoc, last_snoc. }
    congruence. }
  destruct (top_run_any dst c) as (baseD & rD & HrunD & _).
  destruct (top_run_unique _ _ _ _ _ _ HrunR (top_run_more _ _ _ _ m HrunD))
    as [-> ->].
  (* as many units come back as went *)
  assert (mR = m) as ->.
  { pose proof (top_run_length _ _ _ _ Hrun) as Hlen_src.
    assert (len (base ++ replicate (r - m) c) = len src - Z.of_nat m) as Hlen_rest.
    { unfold len in *. rewrite length_app, length_replicate. lia. }
    assert (dst = [] → rD = 0%nat) as HrD.
    { intros ->. destruct HrunD as [HD _]. destruct rD; [done|].
      apply (f_equal length) in HD. rewrite length_app in HD. simpl in HD. lia. }
    rewrite Hlen_rest, Hcap in HmR.
    destruct Hcond as [[Hnil ?]|[?|?]]; [specialize (HrD Hnil)|..]; lia. }
  assert (tubes S'' = tubes S) as Htubes.
  { apply list_eq. intros j.
    destruct (decide (j = Z.to_nat d)) as [->|Hjd].
    - rewrite HsrcR', Hdst. f_equal. destruct HrunD as [-> _].
      f_equal. f_equal. lia.
    - destruct (decide (j = Z.to_nat s)) as [->|Hjs].
      + rewrite HdstR', Hsrc. f_equal. symmetry. apply top_run_split; [done|lia].
      + rewrite HotherR by done. by apply Hother. }
  exists S''. split_and!; try done; [congruence|].
  apply eq_true_iff. by rewrite Htubes.
Qed.

Lemma pour_back_restores_witness :
  ∃ S'', apply_action {| tubes := [[]; ["G"; "G"]]; max_tube_capacity := 4 |} (pour 1 0)
           = Returned S'' ∧
         tubes S'' = tubes green_pair ∧
         max_tube_capacity S'' = max_tube_capacity green_pair ∧
         __eq__ S'' green_pair = true.
Proof.
  apply (pour_back_restores green_pair _ 0 1 ["G"; "G"] []).
  - reflexivity.
  - reflexivity.
  - reflexivity.
  - left. split; [reflexivity|]. by vm_compute.
  - reflexivity.
  - reflexivity.
Defined.

(** C8 as stated fails when the destination already holds units of the
    colour poured: the reverse pour takes them along. *)
Lemma pour_back_counterexample :
  is_valid_action two_greens (pour 0 1) = true ∧
  ∃ S' S'',
    apply_action two_greens (pour 0 1) = Returned S' ∧
    is_valid_action S' (pour 1 0) = true ∧
    apply_action S' (pour 1 0) = Returned S'' ∧
    __eq__ S'' two_greens = false.
Proof.
  split; [done|].
  exists {| tubes := [[]; ["G"; "G"]]; max_tube_capacity := 4 |},
         {| tubes := [["G"; "G"]; []]; max_tube_capacity := 4 |}.
  by vm_compute.
Qed.

(** Replacing an element changes the number of elements that satisfy [P] by
    what the old and the new element count for. *)
Lemma filter_insert_length {A} (P : A → Prop) `{!∀ x, Decision (P x)}
    (l : list A) (i : nat) x y :
  l !! i = Some x →
  (length (filter P (<[i := y]> l)) + (if decide (P x) then 1 else 0)
   = length (filter P l) + (if decide (P y) then 1 else 0))%nat.
Proof.
  intros Hi. pose proof (lookup_lt_Some _ _ _ Hi) as Hlt.
  rewrite insert_take_drop by done.
  rewrite <- (take_drop_middle l i x Hi) at 3.
  rewrite !filter_app, !filter_cons, !length_app.
  destruct (decide (P x)), (decide (P y)); simpl; lia.
Qed.

(** The condition on pouring back cannot be dropped: between two
    distinct tubes, when the destination holds units already and the source
    is below the capacity, the reverse pour never gives back a state equal to
    the one before. *)
Lemma pour_back_differs (S S' : WSPState) (s d : Z) (src dst : list string) :
  is_valid_action S (pour s d) = true →
  tubes S !! Z.to_nat s = Some src →
  tubes S !! Z.to_nat d = Some dst →
  s ≠ d → dst ≠ [] → len src < max_tube_capacity S →
  apply_action S (pour s d) = Returned S' →
  is_valid_action S' (pour d s) = true →
  ∃ S'', apply_action S' (pour d s) = Returned S'' ∧ __eq__ S'' S = false.
Proof.
  intros Hvalid Hsrc Hdst Hsd Hne Hroom_src Happly Hback. unfold apply_action in *.
  pose proof Hvalid as Hfacts. apply is_valid_action_true in Hfacts.
  destruct Hfacts as (src0 & dst0 & Hs & Hd & Hsrc0 & Hdst0 & _ & Hroom & Htop).
  assert (src0 = src) as -> by congruence.
  assert (dst0 = dst) as -> by congruence.
  clear Hsrc0 Hdst0. destruct Htop as [?|Htop]; [done|].
  assert (Z.to_nat s ≠ Z.to_nat d) as Hnsd by lia.
  destruct (apply_action_distinct _ _ _ Hvalid Hsd) as (S1 & Hcall & Hpours).
  rewrite Hcall in Happly. simpl in Happly. injection Happly as ->. clear Hcall.
  destruct Hpours as (src0 & dst0 & base & r & c & m & Hsrc0 & Hdst0 & Hlast & Hrun
                      & Hm & Hsrc' & Hdst' & Hlen & Hother & Hcap).
  assert (src0 = src) as -> by congruence.
  assert (dst0 = dst) as -> by congruence.
  clear Hsrc0 Hdst0.
  pose proof (top_run_positive _ _ _ _ Hrun Hlast) as Hr.
  assert (1 ≤ m)%nat as Hm1 by lia.
  assert (d ≠ s) as Hds by done.
  destruct (apply_action_distinct _ _ _ Hback Hds) as (S'' & Hcall & Hpours).
  rewrite Hcall. clear Hcall. exists S''. split; [done|].
  destruct Hpours as (srcR & dstR & baseR & rR & cR & mR & HsrcR & HdstR & HlastR
                      & HrunR & HmR & HsrcR' & HdstR' & HlenR & HotherR & HcapR).
  assert (srcR = dst ++ replicate m c) as -> by congruence.
  assert (dstR = base ++ replicate (r - m) c) as -> by congruence.
  assert (cR = c) as ->.
  { assert (last (dst ++ replicate m c) = Some c) as Hlast'.
    { destruct m; [lia|]. by rewrite replicate_S_snoc, app_assoc, last_snoc. }
    congruence. }
  destruct (top_run_any dst c) as (baseD & rD & HrunD & _).
  assert (1 ≤ rD)%nat as HrD.
  { apply (top_run_positive _ _ _ _ HrunD). congruence. }
  destruct (top_run_unique _ _ _ _ _ _ HrunR (top_run_more _ _ _ _ m HrunD))
    as [-> ->].
  pose proof (top_run_length _ _ _ _ Hrun) as Hlen_src.
  pose proof (top_run_length _ _ _ _ HrunD) as Hlen_dst.
  assert (len (base ++ replicate (r - m) c) = len src - Z.of_nat m) as Hlen_rest.
  { unfold len in *. rewrite length_app, length_replicate. lia. }
  rewrite Hlen_rest, Hcap in HmR.
  (* more units come back than went *)
  assert (m < mR)%nat as Hmore by lia.
  set (A := (base ++ replicate (r - m) c) ++ replicate mR c) in *.
  set (B := baseD ++ replicate (rD + m - mR) c) in *.
  apply not_true_iff_false. intros Heq. apply eq_true_iff in Heq.
  assert (tubes S'' = <[Z.to_nat s := A]> (<[Z.to_nat d := B]> (tubes S))) as Htubes.
  { apply list_eq. intros j.
    pose proof (lookup_lt_Some _ _ _ Hsrc). pose proof (lookup_lt_Some _ _ _ Hdst).
    destruct (decide (j = Z.to_nat s)) as [->|Hjs].
    - rewrite HdstR', list_lookup_insert_eq; [done|]. by rewrite length_insert.
    - rewrite list_lookup_insert_ne by done.
      destruct (decide (j = Z.to_nat d)) as [->|Hjd].
      + by rewrite HsrcR', list_lookup_insert_eq.
      + rewrite list_lookup_insert_ne by done. rewrite HotherR by done.
        by apply Hother. }
  (* count the tubes equal to [A] before and after *)
  pose proof (filter_insert_length (λ t, t = A) (tubes S) (Z.to_nat d) dst B Hdst) as H1.
  assert (<[Z.to_nat d := B]> (tubes S) !! Z.to_nat s = Some src) as Hsrc2.
  { by rewrite list_lookup_insert_ne. }
  pose proof (filter_insert_length (λ t, t = A) _ (Z.to_nat s) src A Hsrc2) as H2.
  rewrite <- Htubes in H2.
  pose proof (Permutation_length (filter_Permutation (λ t, t = A) _ _ Heq)) as H3.
  assert (len A = len src - Z.of_nat m + Z.of_nat mR) as HlenA.
  { unfold A, len in *. rewrite length_app, length_replicate. lia. }
  assert (src ≠ A) as HsrcA by (intros ->; lia).
  assert (dst = A) as HdstA.
  { destruct (decide (dst = A)); [done|].
    destruct (decide (src = A)); [done|].
    destruct (decide (A = A)); [|done].
    destruct (decide (B = A)); lia. }
  (* then the destination was full *)
  assert (top_run A base (r - m + mR) c) as HrunA.
  { destruct Hrun as [_ Hbase]. split; [|done].
    unfold A. by rewrite <- app_assoc, <- replicate_add. }
  rewrite <- HdstA in HrunA.
  destruct (top_run_unique _ _ _ _ _ _ HrunA HrunD) as [-> HrDeq].
  unfold len in *. lia.
Qed.

(** * The depth-first search *)

Section search.
Import graph_base dfs.
Context {St Act : Type} `{!State St Act}.
Local Abbreviation Searcher := (DFSSearcher St Act).

Lemma pop_and_fail_snoc (self : Searcher) path e :
  path_to_goal self = path ++ [e] →
  pop_and_fail self =
    Some ({| initial_state := initial_state self;
             visited_states := visited_states self;
             path_to_goal := path |}, Returned false).
Proof.
  intros Hpath. unfold pop_and_fail, path_pop. by rewrite Hpath, pop_snoc.
Qed.

Lemma chain_lookup (e : St * option Act) rest (i : nat) e1 e2 :
  chain e rest → (e :: rest) !! i = Some e1 → (e :: rest) !! S i = Some e2 →
  follows e1 e2.
Proof.
  revert e i. induction rest as [|e' rest IH]; intros e i Hchain H1 H2.
  - destruct i; done.
  - destruct Hchain as [Hfol Hchain]. destruct i as [|i].
    + simpl in *. by simplify_eq.
    + apply (IH e' i); done.
Qed.

Lemma chain_reaches (e : St * option Act) rest g oa :
  chain e rest → last (e :: rest) = Some (g, oa) → reaches (length rest) e.1 g.
Proof.
  revert e. induction rest as [|e' rest IH]; intros e Hchain Hlast.
  - simpl in Hlast. simplify_eq. constructor.
  - destruct Hchain as [(a & _ & Hin & Happly) Hchain]. simpl.
    apply (reaches_step _ _ a e'.1); [done..|]. by apply IH.
Qed.

Lemma goal_within_false (k : nat) (s : St) :
  goal_within k s = false →
  ∀ (n : nat) g, reaches n s g → is_goal g = true → (k < n)%nat.
Proof.
  revert s. induction k as [|k IH]; intros s Hnone n g Hreach Hgoal;
    simpl in Hnone; apply orb_false_iff in Hnone as [Hs Hrest].
  - destruct Hreach; [congruence|lia].
  - destruct Hreach as [s|n s a s' g Ha Happly Hreach]; [congruence|].
    assert (goal_within k s' = false) as Hs'.
    { apply not_true_iff_false. intros Hs'. apply not_true_iff_false in Hrest.
      apply Hrest, existsb_exists. exists a. rewrite Happly.
      split; [by apply list_elem_of_In|done]. }
    specialize (IH s' Hs' n g Hreach Hgoal). lia.
Qed.

(** The loop over the actions of a state, given what the recursive calls do. *)
Lemma for_each_action_returns
    (visit : St → Act → Searcher → call bool)
    (state : St) (action : option Act) (depth max_depth : Z) path :
  (∀ next_state a self self' b,
     visit next_state a self = Some (self', Returned b) →
     dfs_post next_state (Some a) (depth + 1) max_depth self self' b) →
  ¬ (0 ≤ max_depth ∧ max_depth ≤ depth) →
  ∀ actions (self self' : Searcher) b,
    (∀ a, a ∈ actions → a ∈ get_possible_actions state) →
    path_to_goal self = path ++ [(state, action)] →
    for_each_action visit state actions self = Some (self', Returned b) →
    initial_state self' = initial_state self ∧
    (∀ x, x ∈ visited_states self → x ∈ visited_states self') ∧
    if b then
      ∃ ext g oa,
        path_to_goal self' = path ++ (state, action) :: ext ∧
        chain (state, action) ext ∧
        last ((state, action) :: ext) = Some (g, oa) ∧
        g ∈ visited_states self' ∧ is_goal g = true ∧
        (0 ≤ max_depth → depth ≤ max_depth → depth + len ext ≤ max_depth)
    else
      path_to_goal self' = path ∧
      (∀ x, x ∈ visited_states self' → is_goal x = true → x ∈ visited_states self).
Proof.
  intros Hvisit Hdepth actions.
  induction actions as [|next_action actions IH]; intros self self' b Hin Hpath Hloop;
    simpl in Hloop.
  - rewrite (pop_and_fail_snoc _ _ _ Hpath) in Hloop.
    injection Hloop as <- <-. simpl. auto.
  - destruct (apply_action state next_action) as [next_state|e] eqn:Happly; [|done].
    destruct (visit next_state next_action self) as [[self1 [[|]|e]]|] eqn:Hcall;
      [| |done|done].
    + injection Hloop as <- <-.
      destruct (Hvisit _ _ _ _ _ Hcall)
        as (Hinit & Hmono & ext & g & oa & Hpath1 & Hchain & Hlast & Hg & Hgoal & Hlen).
      split_and!; [done..|].
      exists ((next_state, Some next_action) :: ext), g, oa.
      split_and!; try done.
      * rewrite Hpath1, Hpath, <- app_assoc. done.
      * simpl. split; [|done]. exists next_action. simpl.
        split_and!; [done| |done]. apply Hin. left.
      * intros H0 Hle. unfold len in *. simpl.
        assert (depth + 1 ≤ max_depth) by lia. specialize (Hlen H0). lia.
    + destruct (Hvisit _ _ _ _ _ Hcall) as (Hinit & Hmono & Hpath1 & Hnew).
      assert (∀ a, a ∈ actions → a ∈ get_possible_actions state) as Hin'.
      { intros a Ha. apply Hin. by right. }
      rewrite <- Hpath1 in Hpath.
      destruct (IH _ _ _ Hin' Hpath Hloop) as (Hinit' & Hmono' & Hb).
      split_and!; [congruence|auto|].
      destruct b; [done|]. destruct Hb as [? Hnew']. auto.
Qed.

(** Whatever the states and actions are: a call of [_dfs] that returns has
    either found a goal and left the path to it after the path it was given,
    or left the path as it was given. *)
Lemma _dfs_returns fuel :
  ∀ state action depth max_depth (self self' : Searcher) b,
    _dfs fuel state action depth max_depth self = Some (self', Returned b) →
    dfs_post state action depth max_depth self self' b.
Proof.
  induction fuel as [|fuel IH]; intros state action depth max_depth self self' b Hcall;
    [done|]. simpl in Hcall.
  destruct (visited self state) eqn:Hvisited.
  { injection Hcall as <- <-. unfold dfs_post. auto. }
  set (self1 := path_append (visited_add self state) (state, action)) in *.
  assert (visited_states self1 = state :: visited_states self) as Hv1.
  { simpl. unfold set_add. unfold visited in Hvisited. by rewrite Hvisited. }
  assert (path_to_goal self1 = path_to_goal self ++ [(state, action)]) as Hp1 by done.
  assert (initial_state self1 = initial_state self) as Hi1 by done.
  clearbody self1.
  destruct (is_goal state) eqn:Hgoal.
  { injection Hcall as <- <-. unfold dfs_post. split_and!; [done| |].
    - intros x Hx. rewrite Hv1. by right.
    - exists [], state, action. split_and!; try done.
      + rewrite Hv1. apply list_elem_of_here.
      + unfold len. simpl. lia. }
  destruct ((0 <=? max_depth) && (max_depth <=? depth)) eqn:Hbound.
  { rewrite (pop_and_fail_snoc _ _ _ Hp1) in Hcall.
    injection Hcall as <- <-. unfold dfs_post. simpl. split_and!; [done| |done|].
    - intros x Hx. rewrite Hv1. by right.
    - rewrite Hv1. intros x Hx Hg.
      apply elem_of_cons in Hx as [->|Hx]; [congruence|done]. }
  apply (for_each_action_returns _ state action depth max_depth (path_to_goal self))
    in Hcall; try done.
  - destruct Hcall as (Hinit & Hmono & Hb). unfold dfs_post.
    split_and!; [congruence| |].
    + intros x Hx. apply Hmono. rewrite Hv1. by right.
    + destruct b; [done|]. destruct Hb as [Hpath Hnew]. split; [done|].
      intros x Hx Hg. specialize (Hnew x Hx Hg). rewrite Hv1 in Hnew.
      apply elem_of_cons in Hnew as [->|]; [congruence|done].
  - intros ?????. apply IH.
  - lia.
Qed.

(** Under a depth bound the path never grows beyond it, whether the call
    returns or raises. *)
Lemma pop_and_fail_path_length (self self' : Searcher) r :
  pop_and_fail self = Some (self', r) →
  len (path_to_goal self') ≤ len (path_to_goal self).
Proof.
  unfold pop_and_fail, path_pop, pop.
  destruct (last (path_to_goal self)) as [e|] eqn:Hlast; intros Heq; simplify_eq.
  - apply last_Some in Hlast as [rest Hrest]. simpl. rewrite Hrest, removelast_last.
    unfold len. rewrite length_app. simpl. lia.
  - lia.
Qed.

Lemma for_each_action_path_length
    (visit : St → Act → Searcher → call bool) (state : St) (bound : Z) (path_len : Z) :
  (∀ next_state a self self' r,
     visit next_state a self = Some (self', r) →
     len (path_to_goal self) ≤ path_len →
     len (path_to_goal self') ≤ bound ∧
     (r = Returned false → path_to_goal self' = path_to_goal self)) →
  path_len ≤ bound →
  ∀ actions (self self' : Searcher) r,
    len (path_to_goal self) ≤ path_len →
    for_each_action visit state actions self = Some (self', r) →
    len (path_to_goal self') ≤ bound.
Proof.
  intros Hvisit Hbound actions.
  induction actions as [|next_action actions IH]; intros self self' r Hlen Hloop;
    simpl in Hloop.
  - apply pop_and_fail_path_length in Hloop. lia.
  - destruct (apply_action state next_action) as [next_state|e]; [|simplify_eq; lia].
    destruct (visit next_state next_action self) as [[self1 r1]|] eqn:Hcall; [|done].
    destruct (Hvisit _ _ _ _ _ Hcall Hlen) as [Hlen1 Hsame].
    destruct r1 as [[|]|e]; simplify_eq; try done.
    apply (IH _ _ _ ltac:(rewrite Hsame; done) Hloop).
Qed.

Lemma _dfs_path_length fuel :
  ∀ state action depth max_depth (self self' : Searcher) r,
    0 ≤ max_depth → depth ≤ max_depth →
    len (path_to_goal self) ≤ depth →
    _dfs fuel state action depth max_depth self = Some (self', r) →
    len (path_to_goal self') ≤ max_depth + 1.
Proof.
  induction fuel as [|fuel IH];
    intros state action depth max_depth self self' r Hmax Hdepth Hlen Hcall; [done|].
  simpl in Hcall.
  destruct (visited self state); [simplify_eq; lia|].
  set (self1 := path_append (visited_add self state) (state, action)) in *.
  assert (len (path_to_goal self1) ≤ depth + 1) as Hlen1.
  { unfold len in *. simpl. rewrite length_app. simpl. lia. }
  clearbody self1.
  destruct (is_goal state); [simplify_eq; lia|].
  destruct ((0 <=? max_depth) && (max_depth <=? depth)) eqn:Hbound.
  { apply pop_and_fail_path_length in Hcall. lia. }
  apply (for_each_action_path_length _ state (max_depth + 1) (depth + 1))
    in Hcall; try done; try lia.
  intros next_state a self2 self2' r2 Hcall2 Hlen2. split.
  - apply (IH next_state (Some a) (depth + 1) max_depth self2 self2' r2);
      [done|lia|done|done].
  - intros ->. by apply _dfs_returns in Hcall2 as (_ & _ & ? & _).
Qed.

Lemma search_path_length fuel max_depth (self self' : Searcher) r :
  0 ≤ max_depth →
  search fuel max_depth self = Some (self', r) →
  len (path_to_goal self') ≤ max_depth + 1.
Proof.
  intros Hmax Hcall.
  apply (_dfs_path_length fuel _ _ 0 max_depth _ _ _ Hmax Hmax) in Hcall; [done|].
  unfold len. simpl. lia.
Qed.

Lemma search_returns fuel max_depth (self self' : Searcher) b :
  search fuel max_depth self = Some (self', Returned b) →
  search_post max_depth self self' b.
Proof.
  unfold search. intros Hcall. apply _dfs_returns in Hcall.
  destruct Hcall as (Hinit & Hmono & Hb). simpl in *. unfold search_post.
  destruct b.
  - destruct Hb as (ext & g & oa & Hpath & Hchain & Hlast & Hg & Hgoal & Hlen).
    split_and!; [done|split; eauto| |].
    + intros H0. rewrite Hpath. specialize (Hlen H0). unfold len in *.
      simpl. lia.
    + exists ext, g, oa. rewrite Hpath. split_and!; try done. lia.
  - destruct Hb as [Hpath Hnew]. split_and!; [done| | |done].
    + split; [done|]. intros (g & Hg & Hgoal).
      specialize (Hnew g Hg Hgoal). by apply elem_of_nil in Hnew.
    + rewrite Hpath. unfold len. simpl. lia.
Qed.

(** A finite search space: the states that satisfy [Inv] are closed under
    the enumerated actions, which never raise there; membership in the
    visited set compares the [key]s of states; and the keys of the states
    that satisfy [Inv] all lie in the list [U]. Then every call returns. *)
Context {K : Type} (key : St → K) (Inv : St → Prop) (U : list K).
Hypothesis contains_key :
  ∀ v s, set_contains __hash__ __eq__ v s = true ↔ key s ∈ key <$> v.
Hypothesis Inv_step :
  ∀ s a, Inv s → a ∈ get_possible_actions s →
         ∃ s', apply_action s a = Returned s' ∧ Inv s'.
Hypothesis Inv_key : ∀ s, Inv s → key s ∈ U.

Lemma visited_bound (self : Searcher) :
  searcher_ok key Inv self → (length (visited_states self) ≤ length U)%nat.
Proof.
  intros [Hinv Hnodup].
  rewrite <- (length_fmap key). apply submseteq_length, NoDup_submseteq; [done|].
  intros k Hk. apply list_elem_of_fmap in Hk as [s [-> Hs]]. apply Inv_key.
  rewrite Forall_forall in Hinv. by apply Hinv.
Qed.

Lemma for_each_action_terminates fuel state action depth max_depth path :
  (∀ state action depth (self : Searcher),
     Inv state → searcher_ok key Inv self →
     (length U < fuel + length (visited_states self))%nat →
     dfs_done key Inv self (_dfs fuel state action depth max_depth self)) →
  Inv state →
  ∀ actions (self : Searcher),
    (∀ a, a ∈ actions → a ∈ get_possible_actions state) →
    searcher_ok key Inv self →
    (length U < fuel + length (visited_states self))%nat →
    path_to_goal self = path ++ [(state, action)] →
    dfs_done key Inv self
      (for_each_action
         (λ next_state next_action,
            _dfs fuel next_state (Some next_action) (depth + 1) max_depth)
         state actions self).
Proof.
  intros IH Hstate actions.
  induction actions as [|next_action actions IHa]; intros self Hin Hok Hfuel Hpath;
    simpl.
  - rewrite (pop_and_fail_snoc _ _ _ Hpath). eexists _, _. split; [done|].
    split; [done|]. simpl. lia.
  - destruct (Inv_step state next_action) as (next_state & -> & Hnext); [done|..].
    { apply Hin, list_elem_of_here. }
    destruct (IH next_state (Some next_action) (depth + 1) self Hnext Hok Hfuel)
      as (self1 & b1 & Hcall & Hok1 & Hlen1).
    rewrite Hcall. destruct b1.
    + by exists self1, true.
    + apply _dfs_returns in Hcall as (_ & _ & Hpath1 & _).
      destruct (IHa self1) as (self' & b & -> & Hok' & Hlen'); try done.
      * intros a Ha. apply Hin. by right.
      * lia.
      * congruence.
      * exists self', b. split_and!; [done..|lia].
Qed.

Lemma _dfs_terminates fuel :
  ∀ state action depth max_depth (self : Searcher),
    Inv state → searcher_ok key Inv self →
    (length U < fuel + length (visited_states self))%nat →
    dfs_done key Inv self (_dfs fuel state action depth max_depth self).
Proof.
  induction fuel as [|fuel IH]; intros state action depth max_depth self Hstate Hok Hfuel.
  { pose proof (visited_bound _ Hok). lia. }
  simpl. destruct (visited self state) eqn:Hvisited.
  { exists self, false. by split_and!. }
  set (self1 := path_append (visited_add self state) (state, action)).
  assert (visited_states self1 = state :: visited_states self) as Hv1.
  { simpl. unfold set_add. unfold visited in Hvisited. by rewrite Hvisited. }
  assert (path_to_goal self1 = path_to_goal self ++ [(state, action)]) as Hp1 by done.
  clearbody self1.
  assert (searcher_ok key Inv self1) as Hok1.
  { destruct Hok as [Hinv Hnodup]. unfold searcher_ok. rewrite Hv1. split.
    - by constructor.
    - rewrite fmap_cons. constructor; [|done].
      intros Hkey. apply contains_key in Hkey.
      unfold visited in Hvisited. congruence. }
  pose proof (visited_bound _ Hok1) as Hbound1. rewrite Hv1 in Hbound1.
  simpl in Hbound1.
  destruct (is_goal state).
  { exists self1, true. split_and!; [done..|]. rewrite Hv1. simpl. lia. }
  destruct ((0 <=? max_depth) && (max_depth <=? depth)).
  { rewrite (pop_and_fail_snoc _ _ _ Hp1). eexists _, _. split_and!; [done..|].
    simpl. rewrite Hv1. simpl. lia. }
  destruct (for_each_action_terminates fuel state action depth max_depth
              (path_to_goal self) (λ s a d, IH s a d max_depth) Hstate
              (get_possible_actions state) self1)
    as (self' & b & -> & Hok' & Hlen'); try done.
  - rewrite Hv1. simpl. lia.
  - exists self', b. split_and!; [done..|]. rewrite Hv1 in Hlen'. simpl in Hlen'. lia.
Qed.

Lemma search_terminates fuel max_depth (self : Searcher) :
  Inv (initial_state self) → (length U < fuel)%nat →
  ∃ self' b, search fuel max_depth self = Some (self', Returned b) ∧
             search_post max_depth self self' b.
Proof.
  intros Hinit Hfuel. unfold search.
  destruct (_dfs_terminates fuel (initial_state self) None 0 max_depth
              {| initial_state := initial_state self;
                 visited_states := []; path_to_goal := [] |})
    as (self' & b & Hcall & _); try done.
  - split; simpl; constructor.
  - simpl. lia.
  - exists self', b. split; [done|]. by apply (search_returns fuel).
Qed.
End search.

(** ** The search on the puzzle *)

Lemma elem_of_lists_of {A} (alphabet : list A) (l : list A) :
  Forall (λ x, x ∈ alphabet) l → l ∈ lists_of alphabet (length l).
Proof.
  induction 1 as [|x l Hx _ IH]; simpl.
  - apply list_elem_of_here.
  - apply list_elem_of_bind. exists x. split; [|done].
    apply list_elem_of_fmap. by exists l.
Qed.

Lemma elem_of_lists_upto {A} (alphabet : list A) (l : list A) (n : nat) :
  Forall (λ x, x ∈ alphabet) l → (length l ≤ n)%nat → l ∈ lists_upto alphabet n.
Proof.
  intros Hl Hn. apply list_elem_of_bind. exists (length l). split.
  - by apply elem_of_lists_of.
  - apply elem_of_seq. lia.
Qed.

Section wsp_search.
Import dfs.
Variable hash : list (list string) → Z.
Local Abbreviation wsp := (WSPState_State hash).
Local Abbreviation Searcher := (DFSSearcher WSPState Action).

Lemma wsp_contains_key (v : list WSPState) (S : WSPState) :
  set_contains (__hash__ hash) __eq__ v S = true ↔ key S ∈ key <$> v.
Proof.
  unfold set_contains, key. induction v as [|S1 v IH]; simpl.
  - split; [done|]. intros Hin. by apply elem_of_nil in Hin.
  - rewrite orb_true_iff, elem_of_cons, IH.
    assert ((__hash__ hash S1 =? __hash__ hash S) && __eq__ S1 S = true
            ↔ sorted (tubes S) = sorted (tubes S1)) as ->; [|done].
    rewrite andb_true_iff, eq_true_iff, <- sorted_eq_iff. split.
    + by intros [_ ->].
    + intros Heq. split; [|done]. unfold __hash__. rewrite Heq. lia.
Qed.

Lemma wsp_holds_units_step n units (S : WSPState) (a : Action) :
  holds_units n units S → a ∈ get_possible_actions S →
  ∃ S', apply_action S a = Returned S' ∧ holds_units n units S'.
Proof.
  intros [Hlen Hperm] Ha.
  apply elem_of_get_possible_actions in Ha as (s & d & -> & _ & Hvalid).
  destruct (apply_action_call_units _ _ Hvalid) as (S' & Happly & Hlen' & Hperm').
  exists S'. unfold apply_action. rewrite Happly.
  split; [done|]. split; [congruence|by etrans].
Qed.

Lemma wsp_holds_units_key n units (S : WSPState) :
  holds_units n units S → key S ∈ state_space n units.
Proof.
  intros [Hlen Hperm]. unfold key, state_space.
  pose proof (sorted_Permutation (tubes S)) as Hsorted.
  rewrite <- Hlen, <- (Permutation_length Hsorted).
  apply elem_of_lists_of. apply Forall_forall. intros tube Htube.
  rewrite Hsorted in Htube.
  assert (tube ⊆ concat (tubes S)) as Hsub.
  { intros x Hx. apply list_elem_of_In, in_concat. exists tube.
    split; by apply list_elem_of_In. }
  apply elem_of_lists_upto.
  - apply Forall_forall. intros x Hx. rewrite <- Hperm. by apply Hsub.
  - rewrite <- (Permutation_length Hperm).
    apply list_elem_of_split in Htube as (l1 & l2 & ->).
    rewrite concat_app, concat_cons, !length_app. lia.
Qed.

(** With fuel beyond the number of canonical forms, [search] returns. *)
Lemma wsp_search_terminates fuel max_depth (self : Searcher) :
  (length (state_space (length (tubes (initial_state self)))
                       (concat (tubes (initial_state self)))) < fuel)%nat →
  ∃ self' b, @search _ _ wsp fuel max_depth self = Some (self', Returned b) ∧
             @search_post _ _ wsp max_depth self self' b.
Proof.
  intros Hfuel.
  apply (@search_terminates _ _ wsp _ key
           (holds_units (length (tubes (initial_state self)))
                        (concat (tubes (initial_state self))))
           (state_space (length (tubes (initial_state self)))
                        (concat (tubes (initial_state self))))).
  - apply wsp_contains_key.
  - apply wsp_holds_units_step.
  - apply wsp_holds_units_key.
  - by split.
  - done.
Qed.

End wsp_search.

(** C1. Whatever implements [State] and whatever the searcher holds before
    the call: when [search] returns, it returns true iff a goal state has
    been reached and marked visited; on true the first entry of the path is
    the initial state with no action, the state of the last entry is a goal,
    and each entry after the first holds an action that [apply_action] turns
    the state of the entry before it into its own state; on false the path
    is empty. On the puzzle [search] does return, given fuel enough, and a
    state of the puzzle is [__eq__] to itself. *)
Theorem search_finds_path :
  (∀ (St Act : Type) (impl : graph_base.State St Act) (fuel : nat) (max_depth : Z)
     (self self' : dfs.DFSSearcher St Act) (b : bool),
     dfs.search fuel max_depth self = Some (self', Returned b) →
     (b = true ↔ ∃ g, g ∈ dfs.visited_states self' ∧ graph_base.is_goal g = true) ∧
     (b = true →
        dfs.path_to_goal self' !! 0%nat = Some (dfs.initial_state self, None) ∧
        (∃ g oa, last (dfs.path_to_goal self') = Some (g, oa) ∧
                 graph_base.is_goal g = true) ∧
        (∀ (i : nat) s1 oa1 s2 oa2,
           dfs.path_to_goal self' !! i = Some (s1, oa1) →
           dfs.path_to_goal self' !! S i = Some (s2, oa2) →
           ∃ a, oa2 = Some a ∧ graph_base.apply_action s1 a = Returned s2)) ∧
     (b = false → dfs.path_to_goal self' = [])) ∧
  (∀ (hash : list (list string) → Z) (max_depth : Z)
     (self : dfs.DFSSearcher WSPState Action),
     ∃ fuel0 : nat, ∀ fuel : nat, (fuel0 ≤ fuel)%nat →
     ∃ self' b,
       @dfs.search _ _ (WSPState_State hash) fuel max_depth self
       = Some (self', Returned b)) ∧
  (∀ S : WSPState, __eq__ S S = true).
Proof.
  split_and!.
  - intros St Act impl fuel max_depth self self' b Hcall.
    apply search_returns in Hcall as (_ & Hiff & _ & Hb).
    split_and!; [done| |].
    + intros ->. destruct Hb as (rest & g & oa & Hpath & Hchain & Hlast & Hgoal & _).
      split_and!.
      * by rewrite Hpath.
      * eauto.
      * intros i s1 oa1 s2 oa2 H1 H2. rewrite Hpath in H1, H2.
        destruct (chain_lookup _ _ _ _ _ Hchain H1 H2) as (a & Ha & _ & Happly).
        by exists a.
    + by intros ->.
  - intros hash max_depth self. eexists. intros fuel Hfuel.
    destruct (wsp_search_terminates hash fuel max_depth self)
      as (self' & b & Hcall & _); [exact Hfuel|].
    by exists self', b.
  - intros S. by apply eq_true_iff.
Qed.

Lemma search_finds_path_witness :
  ∃ self',
    @dfs.search _ _ (WSPState_State (λ _, 0)) 10 (-1) (dfs.__init__ unsorted)
    = Some (self', Returned true) ∧
    dfs.path_to_goal self' !! 0%nat = Some (unsorted, None) ∧
    ∃ g oa, last (dfs.path_to_goal self') = Some (g, oa) ∧ is_goal g = true.
Proof.
  eexists. split; [by vm_compute|].
  destruct (proj1 (proj2 (proj1 search_finds_path _ _ (WSPState_State (λ _, 0))
                            10%nat (-1) (dfs.__init__ unsorted) _ true
                            ltac:(by vm_compute))) eq_refl)
    as (Hfirst & Hlast & _).
  split; [exact Hfirst|exact Hlast].
Defined.

(** C6. With a depth bound [k ≥ 0], whatever implements [State]: however a
    call of [search] ends, it leaves a path of no more than [k + 1] entries;
    and when it returns, it returns false if every goal state that enumerated
    actions reach from the initial state takes [k + 1] actions or more. On
    the puzzle [search] does return, given fuel enough. *)
Theorem search_depth_bound (k : Z) :
  0 ≤ k →
  (∀ (St Act : Type) (impl : graph_base.State St Act) (fuel : nat)
     (self self' : dfs.DFSSearcher St Act) (r : outcome bool),
     dfs.search fuel k self = Some (self', r) →
     len (dfs.path_to_goal self') ≤ k + 1 ∧
     ((∀ (n : nat) g,
         reaches n (dfs.initial_state self) g → graph_base.is_goal g = true →
         k + 1 ≤ Z.of_nat n) →
      ∀ b, r = Returned b → b = false)) ∧
  (∀ (hash : list (list string) → Z) (self : dfs.DFSSearcher WSPState Action),
     ∃ fuel0 : nat, ∀ fuel : nat, (fuel0 ≤ fuel)%nat →
     ∃ self' b,
       @dfs.search _ _ (WSPState_State hash) fuel k self = Some (self', Returned b)).
Proof.
  intros Hk. split.
  - intros St Act impl fuel self self' r Hcall.
    split; [by apply (search_path_length fuel k self self' r)|].
    intros Hfar b ->.
    apply search_returns in Hcall as (_ & _ & _ & Hb).
    destruct b; [exfalso|done].
    destruct Hb as (rest & g & oa & Hpath & Hchain & Hlast & Hgoal & Hrest).
    rewrite Hpath in Hlast.
    pose proof (chain_reaches _ _ _ _ Hchain Hlast) as Hreach.
    specialize (Hfar _ _ Hreach Hgoal). specialize (Hrest Hk). unfold len in *. lia.
  - intros hash self. eexists. intros fuel Hfuel.
    destruct (wsp_search_terminates hash fuel k self)
      as (self' & b & Hcall & _); [exact Hfuel|].
    by exists self', b.
Qed.

Lemma search_depth_bound_witness :
  ∃ self',
    @dfs.search _ _ (WSPState_State (λ _, 0)) 10 2 (dfs.__init__ unsorted)
    = Some (self', Returned false) ∧
    len (dfs.path_to_goal self') ≤ 2 + 1.
Proof.
  assert (0 ≤ 2) as Hk by lia.
  destruct (@dfs.search _ _ (WSPState_State (λ _, 0)) 10 2 (dfs.__init__ unsorted))
    as [[self' [b|e]]|] eqn:Hcall;
    [|vm_compute in Hcall; discriminate..].
  destruct (proj1 (search_depth_bound 2 Hk) _ _ _ _ _ _ _ Hcall) as [Hlen Hfalse].
  assert (b = false) as ->.
  { apply Hfalse; [|reflexivity]. intros n g Hreach Hgoal.
    assert (2 < n)%nat; [|lia].
    apply (goal_within_false (State0 := WSPState_State (λ _, 0)) 2 unsorted
             ltac:(by vm_compute) n g Hreach Hgoal). }
  exists self'. split; [reflexivity|exact Hlen].
Defined.

(** * Further properties of the puzzle model *)

(** ** Pours and the capacity *)

Lemma apply_action_capacity S a S' :
  apply_action S a = Returned S' → max_tube_capacity S' = max_tube_capacity S.
Proof.
  intros Happly. destruct (is_valid_action S a) eqn:Hvalid.
  - destruct (is_valid_action_is_pour _ _ Hvalid) as (s & d & ->).
    destruct (apply_action_call_valid _ _ _ Hvalid)
      as (src & dst & base & r & c & _ & _ & _ & _ & _ & Hcall).
    unfold apply_action in Happly. rewrite Hcall in Happly. simpl in Happly.
    by simplify_eq.
  - unfold apply_action, apply_action_call in Happly.
    destruct a; [rewrite Hvalid in Happly|]; done.
Qed.

Lemma apply_action_returned S a S' :
  apply_action S a = Returned S' →
  ∃ s d, a = pour s d ∧ is_valid_action S a = true.
Proof.
  intros Happly. destruct (is_valid_action S a) eqn:Hvalid.
  - destruct (is_valid_action_is_pour _ _ Hvalid) as (s & d & ->). by exists s, d.
  - unfold apply_action, apply_action_call in Happly.
    destruct a; [rewrite Hvalid in Happly|]; done.
Qed.

Lemma apply_action_cases S s d S' :
  apply_action S (pour s d) = Returned S' →
  (s = d ∧ S' = S) ∨ (s ≠ d ∧ pours_top_run S s d S').
Proof.
  intros Happly.
  destruct (apply_action_returned _ _ _ Happly) as (? & ? & _ & Hvalid).
  unfold apply_action in Happly. destruct (decide (s = d)) as [->|Hsd].
  - left. rewrite (apply_action_same _ _ Hvalid) in Happly. simpl in Happly.
    by simplify_eq.
  - right. destruct (apply_action_distinct _ _ _ Hvalid Hsd) as (S1 & Hcall & Hpours).
    rewrite Hcall in Happly. simpl in Happly. by simplify_eq.
Qed.

Lemma apply_action_fits S a S' :
  within_capacity S → apply_action S a = Returned S' → within_capacity S'.
Proof.
  intros Hfits Happly.
  destruct (apply_action_returned _ _ _ Happly) as (s & d & -> & Hvalid).
  destruct (apply_action_cases _ _ _ _ Happly) as [[_ ->]|[Hsd Hpours]]; [done|].
  destruct Hpours as (src & dst & base & r & c & m & Hsrc & Hdst & Hlast & Hrun
                      & Hm & Hs' & Hd' & Hlen & Hother & Hcap).
  intros tube Htube. apply list_elem_of_lookup in Htube as [j Hj]. rewrite Hcap.
  destruct (decide (j = Z.to_nat s)) as [->|Hjs].
  { rewrite Hs' in Hj. injection Hj as <-.
    assert (len src ≤ max_tube_capacity S) as Hle.
    { apply Hfits. by eapply list_elem_of_lookup_2. }
    apply top_run_length in Hrun. unfold len in *.
    rewrite length_app, length_replicate. lia. }
  destruct (decide (j = Z.to_nat d)) as [->|Hjd].
  { rewrite Hd' in Hj. injection Hj as <-. unfold len in *.
    rewrite length_app, length_replicate.
    apply is_valid_action_true in Hvalid
      as (src1 & dst1 & _ & _ & _ & Hdst1 & _ & Hroom & _).
    assert (dst1 = dst) as -> by congruence. unfold len in *. lia. }
  rewrite Hother in Hj by done. apply Hfits. by eapply list_elem_of_lookup_2.
Qed.

(** X11. A pour that [apply_action] performs into another tube never fills the
    destination beyond the capacity, and a state in which no tube holds more
    than the capacity is turned into such a state. *)
Theorem apply_action_within_capacity (S S' : WSPState) (a : Action) :
  apply_action S a = Returned S' →
  (∀ s d dst', a = pour s d → s ≠ d → tubes S' !! Z.to_nat d = Some dst' →
               len dst' ≤ max_tube_capacity S') ∧
  (within_capacity S → within_capacity S').
Proof.
  intros Happly. split; [|intros Hfits; by apply (apply_action_fits S a)].
  intros s d dst' -> Hsd Hdst'.
  destruct (apply_action_returned _ _ _ Happly) as (? & ? & _ & Hvalid).
  destruct (apply_action_cases _ _ _ _ Happly) as [[? _]|[_ Hpours]]; [done|].
  destruct Hpours as (src & dst & base & r & c & m & Hsrc & Hdst & Hlast & Hrun
                      & Hm & Hs' & Hd' & Hlen & Hother & Hcap).
  rewrite Hd' in Hdst'. injection Hdst' as <-. rewrite Hcap. unfold len in *.
  rewrite length_app, length_replicate.
  apply is_valid_action_true in Hvalid
    as (src1 & dst1 & _ & _ & _ & Hdst1 & _ & Hroom & _).
  assert (dst1 = dst) as -> by congruence. unfold len in *. lia.
Qed.

Lemma apply_action_within_capacity_witness :
  within_capacity {| tubes := [["red"]; ["blue"; "blue"]]; max_tube_capacity := 4 |}.
Proof.
  apply (apply_action_within_capacity
           {| tubes := [["red"; "blue"; "blue"]; []]; max_tube_capacity := 4 |}
           _ (pour 0 1)); [reflexivity|].
  intros tube Htube. unfold len.
  repeat (apply elem_of_cons in Htube as [->|Htube]; [simpl; lia|]).
  by apply elem_of_nil in Htube.
Defined.

(** X12. Every action that [get_possible_actions] lists is applied without an
    exception, and it changes the tubes: the source loses at least one unit,
    which the destination gains. *)
Theorem possible_actions_apply (S : WSPState) (a : Action) :
  a ∈ get_possible_actions S →
  is_valid_action S a = true ∧
  ∃ S' s d src dst src' dst',
    a = pour s d ∧ apply_action S a = Returned S' ∧
    tubes S !! Z.to_nat s = Some src ∧ tubes S !! Z.to_nat d = Some dst ∧
    tubes S' !! Z.to_nat s = Some src' ∧ tubes S' !! Z.to_nat d = Some dst' ∧
    len src' < len src ∧ len dst < len dst' ∧
    len src' + len dst' = len src + len dst ∧
    tubes S' ≠ tubes S.
Proof.
  intros Ha. apply elem_of_get_possible_actions in Ha as (s & d & -> & Hsd & Hvalid).
  split; [done|].
  destruct (apply_action_distinct _ _ _ Hvalid Hsd) as (S' & Hcall & Hpours).
  pose proof Hpours as (src & dst & base & r & c & m & Hsrc & Hdst & Hlast & Hrun
                      & Hm & Hs' & Hd' & Hlen & Hother & Hcap).
  pose proof (top_run_positive _ _ _ _ Hrun Hlast) as Hr.
  pose proof (top_run_length _ _ _ _ Hrun) as Hlensrc.
  apply is_valid_action_true in Hvalid
    as (src1 & dst1 & _ & _ & _ & Hdst1 & _ & Hroom & _).
  assert (dst1 = dst) as -> by congruence.
  assert (len (base ++ replicate (r - m) c) < len src) as Hless.
  { unfold len in *. rewrite length_app, length_replicate. lia. }
  exists S', s, d, src, dst, (base ++ replicate (r - m) c), (dst ++ replicate m c).
  split_and!; try done.
  - unfold apply_action. by rewrite Hcall.
  - unfold len. rewrite length_app, length_replicate. lia.
  - unfold len in *. rewrite !length_app, !length_replicate. lia.
  - intros Heq. rewrite Heq, Hsrc in Hs'. injection Hs' as Hs'.
    rewrite <- Hs' in Hless. lia.
Qed.

Lemma possible_actions_apply_witness :
  is_valid_action complex_state (pour 0 1) = true.
Proof.
  apply (possible_actions_apply complex_state (pour 0 1)).
  apply list_elem_of_In. vm_compute. tauto.
Defined.

(** X16. A state whose capacity is zero or less has no move: no action is valid,
    [apply_action] raises for every action, and no action is listed. *)
Theorem no_capacity_no_moves (S : WSPState) :
  max_tube_capacity S ≤ 0 →
  (∀ a, is_valid_action S a = false) ∧
  (∀ a, ∃ e, apply_action S a = Raised e) ∧
  get_possible_actions S = [].
Proof.
  intros Hcap.
  assert (∀ a, is_valid_action S a = false) as Hnone.
  { intros a. destruct (is_valid_action S a) eqn:Hvalid; [exfalso|done].
    destruct (is_valid_action_is_pour _ _ Hvalid) as (s & d & ->).
    apply is_valid_action_true in Hvalid as (src & dst & _ & _ & _ & _ & _ & Hroom & _).
    unfold len in Hroom. lia. }
  split_and!; [done| |].
  - intros a. unfold apply_action, apply_action_call.
    destruct a as [a|]; [|by eexists]. rewrite Hnone. by eexists.
  - destruct (get_possible_actions S) as [|a l] eqn:Hl; [done|exfalso].
    assert (a ∈ get_possible_actions S) as Ha by (rewrite Hl; apply list_elem_of_here).
    apply elem_of_get_possible_actions in Ha as (s & d & _ & _ & Hvalid).
    by rewrite Hnone in Hvalid.
Qed.

Lemma no_capacity_no_moves_witness :
  get_possible_actions {| tubes := [["R"]; []]; max_tube_capacity := 0 |} = [].
Proof.
  apply (no_capacity_no_moves {| tubes := [["R"]; []]; max_tube_capacity := 0 |}).
  simpl. lia.
Defined.

(** ** States with the same tubes in another order *)

Lemma is_goal_permuted S1 S2 :
  tubes S1 ≡ₚ tubes S2 → max_tube_capacity S1 = max_tube_capacity S2 →
  is_goal S1 = is_goal S2.
Proof.
  intros Hperm Hcap. apply eq_true_iff_eq. unfold is_goal.
  rewrite !is_goal_loop_true, Hcap. split; intros H tube Hin; apply H.
  - by rewrite Hperm.
  - by rewrite <- Hperm.
Qed.

(** States with the same tubes in another order and the same capacity have
    the same moves: each enumerated action of one is matched by an enumerated
    action of the other, leading to states that again have the same tubes in
    another order. *)
Lemma apply_action_permuted S1 S2 a S1' :
  tubes S1 ≡ₚ tubes S2 → max_tube_capacity S1 = max_tube_capacity S2 →
  a ∈ get_possible_actions S1 → apply_action S1 a = Returned S1' →
  ∃ a' S2', a' ∈ get_possible_actions S2 ∧ apply_action S2 a' = Returned S2' ∧
            tubes S1' ≡ₚ tubes S2' ∧ max_tube_capacity S1' = max_tube_capacity S2'.
Proof.
  intros Hperm Hcap Ha Happly.
  apply elem_of_get_possible_actions in Ha as (s & d & -> & Hsd & Hvalid).
  pose proof Hvalid as Hfacts. apply is_valid_action_true in Hfacts.
  destruct Hfacts as (src & dst & Hs & Hd & Hsrc & Hdst & Hne & Hroom & Htop).
  apply Permutation_inj in Hperm as [Hlen (f & Hinj & Hf)].
  set (s2 := Z.of_nat (f (Z.to_nat s))). set (d2 := Z.of_nat (f (Z.to_nat d))).
  assert (Z.to_nat s2 = f (Z.to_nat s)) as Hs2 by (unfold s2; lia).
  assert (Z.to_nat d2 = f (Z.to_nat d)) as Hd2 by (unfold d2; lia).
  assert (Z.to_nat s ≠ Z.to_nat d) as Hnsd by lia.
  assert (f (Z.to_nat s) ≠ f (Z.to_nat d)) as Hfsd by (intros ?%Hinj; done).
  assert (s2 ≠ d2) as Hsd2 by lia.
  assert (is_valid_action S2 (pour s2 d2) = true) as Hvalid2.
  { apply is_valid_action_true. exists src, dst.
    rewrite Hs2, Hd2, <- !Hf, <- Hcap. split_and!; try done; lia. }
  destruct (apply_action_distinct _ _ _ Hvalid Hsd) as (S1'' & Hcall1 & Hpours1).
  unfold apply_action in Happly. rewrite Hcall1 in Happly. simpl in Happly.
  injection Happly as ->.
  destruct (apply_action_distinct _ _ _ Hvalid2 Hsd2) as (S2' & Hcall2 & Hpours2).
  exists (pour s2 d2), S2'. split_and!.
  - apply elem_of_get_possible_actions. by exists s2, d2.
  - unfold apply_action. by rewrite Hcall2.
  - destruct Hpours1 as (src1 & dst1 & base & r & c & m & Hsrc1 & Hdst1 & Hlast & Hrun
                         & Hm & Hs1' & Hd1' & Hlen1 & Hother1 & Hcap1).
    destruct Hpours2 as (src2 & dst2 & base2 & r2 & c2 & m2 & Hsrc2 & Hdst2 & Hlast2
                         & Hrun2 & Hm2 & Hs2' & Hd2' & Hlen2 & Hother2 & Hcap2).
    rewrite Hs2, <- Hf in Hsrc2. rewrite Hd2, <- Hf in Hdst2.
    assert (src1 = src) as -> by congruence. assert (src2 = src) as -> by congruence.
    assert (dst1 = dst) as -> by congruence. assert (dst2 = dst) as -> by congruence.
    assert (c2 = c) as -> by congruence.
    destruct (top_run_unique _ _ _ _ _ _ Hrun Hrun2) as [-> ->].
    assert (m2 = m) as -> by lia.
    apply Permutation_inj. split; [congruence|]. exists f. split; [done|].
    intros i. destruct (decide (i = Z.to_nat s)) as [->|His].
    { by rewrite Hs1', <- Hs2, Hs2'. }
    destruct (decide (i = Z.to_nat d)) as [->|Hid].
    { by rewrite Hd1', <- Hd2, Hd2'. }
    rewrite Hother1 by done. rewrite Hother2; [apply Hf|..].
    + rewrite Hs2. intros ?%Hinj. done.
    + rewrite Hd2. intros ?%Hinj. done.
  - destruct Hpours1 as (? & ? & ? & ? & ? & ? & _ & _ & _ & _ & _ & _ & _ & _ & _ & Hcap1).
    destruct Hpours2 as (? & ? & ? & ? & ? & ? & _ & _ & _ & _ & _ & _ & _ & _ & _ & Hcap2).
    congruence.
Qed.

(** X13. States that [__eq__] identifies and that have the same capacity are the
    same position of the puzzle: both are goals or neither is, and each
    enumerated action of one is matched by an enumerated action of the other
    that leads to a state [__eq__] to the one the first leads to. *)
Theorem eq_states_same_moves (S1 S2 : WSPState) :
  __eq__ S1 S2 = true → max_tube_capacity S1 = max_tube_capacity S2 →
  is_goal S1 = is_goal S2 ∧
  ∀ a S1', a ∈ get_possible_actions S1 → apply_action S1 a = Returned S1' →
    ∃ a' S2', a' ∈ get_possible_actions S2 ∧ apply_action S2 a' = Returned S2' ∧
              __eq__ S1' S2' = true ∧
              max_tube_capacity S1' = max_tube_capacity S2'.
Proof.
  intros Heq Hcap. apply eq_true_iff in Heq. split; [by apply is_goal_permuted|].
  intros a S1' Ha Happly.
  destruct (apply_action_permuted S1 S2 a S1' Heq Hcap Ha Happly)
    as (a' & S2' & Ha' & Happly' & Hperm & Hcap').
  exists a', S2'. split_and!; [done..| |done]. by apply eq_true_iff.
Qed.

Lemma eq_states_same_moves_witness :
  is_goal mixed = is_goal shuffled.
Proof.
  apply (eq_states_same_moves mixed shuffled); reflexivity.
Defined.

(** X14. [__eq__] and [__hash__] do not look at the capacity: states with the
    same tubes are equal and hash alike whatever their capacities, and two
    equal states need not agree on [is_goal]. *)
Theorem eq_ignores_capacity (hash : list (list string) → Z) :
  (∀ S1 S2 : WSPState, tubes S1 = tubes S2 →
     __eq__ S1 S2 = true ∧ __hash__ hash S1 = __hash__ hash S2) ∧
  ∃ S1 S2 : WSPState, __eq__ S1 S2 = true ∧ is_goal S1 = true ∧ is_goal S2 = false.
Proof.
  split.
  - intros S1 S2 Heq. split.
    + apply eq_true_iff. by rewrite Heq.
    + unfold __hash__. by rewrite Heq.
  - exists {| tubes := [["R"; "R"]]; max_tube_capacity := 2 |},
           {| tubes := [["R"; "R"]]; max_tube_capacity := 4 |}.
    by vm_compute.
Qed.

(** ** Moves in a goal state *)





(** * Further properties of the search *)

(** ** What every call keeps *)

Section invariants.
Import graph_base dfs.
Context {St Act : Type} `{!State St Act}.
Local Abbreviation Searcher := (DFSSearcher St Act).

Lemma reaches_snoc (n : nat) (s0 x x' : St) a :
  reaches n s0 x → a ∈ get_possible_actions x → apply_action x a = Returned x' →
  reaches (S n) s0 x'.
Proof.
  intros Hreach Ha Happly. induction Hreach as [s|n s b s' g Hb Hs' _ IH].
  - by apply (reaches_step _ _ a x'); [..|constructor].
  - apply (reaches_step _ _ b s'); [done..|]. by apply IH.
Qed.

Lemma set_contains_false_elem (v : list St) (x y : St) :
  set_contains __hash__ __eq__ v x = false → y ∈ v →
  set_contains __hash__ __eq__ [y] x = false.
Proof.
  unfold set_contains. intros Hnone Hy. simpl. rewrite orb_false_r.
  apply not_true_iff_false. intros Hsame. apply not_true_iff_false in Hnone.
  apply Hnone, existsb_exists. exists y. split; [by apply list_elem_of_In|done].
Qed.

Lemma set_ok_lookup (v : list St) (i j : nat) x y :
  set_ok v → (i < j)%nat → v !! i = Some x → v !! j = Some y →
  set_contains __hash__ __eq__ [y] x = false.
Proof.
  revert i j. induction v as [|z v IH]; intros i j Hok Hij Hi Hj; [done|].
  destruct Hok as [Hz Hv]. destruct j as [|j]; [lia|]. destruct i as [|i].
  - simpl in Hi, Hj. simplify_eq. apply (set_contains_false_elem v); [done|].
    by eapply list_elem_of_lookup_2.
  - simpl in Hi, Hj. apply (IH i j); [done|lia|done..].
Qed.

Lemma tidy_push s0 (self : Searcher) state action :
  tidy s0 self → (∃ n, reaches n s0 state) → visited self state = false →
  tidy s0 (path_append (visited_add self state) (state, action)).
Proof.
  intros (Hreach & Hset & Hsub & Hfresh) Hstate Hnew.
  unfold tidy, path_append, visited_add. simpl. unfold set_add.
  unfold visited in Hnew. rewrite Hnew. split_and!.
  - intros x Hx. apply elem_of_cons in Hx as [->|Hx]; auto.
  - by split.
  - intros e He. apply elem_of_app in He as [He|He].
    + right. by apply Hsub.
    + apply list_elem_of_singleton in He as ->. left.
  - intros i j e1 e2 Hij H1 H2.
    destruct (decide (j < length (path_to_goal self))%nat) as [Hj|Hj].
    + rewrite lookup_app_l in H1, H2 by lia. by apply (Hfresh i j).
    + rewrite lookup_app_r in H2 by lia.
      apply list_lookup_singleton_Some in H2 as [Hj0 <-].
      rewrite lookup_app_l in H1 by lia. simpl.
      apply (set_contains_false_elem _ _ _ Hnew), Hsub.
      by eapply list_elem_of_lookup_2.
Qed.

Lemma tidy_pop s0 (self : Searcher) path e :
  tidy s0 self → path_to_goal self = path ++ [e] →
  tidy s0 {| initial_state := initial_state self;
             visited_states := visited_states self;
             path_to_goal := path |}.
Proof.
  intros (Hreach & Hset & Hsub & Hfresh) Hpath. unfold tidy. simpl.
  rewrite Hpath in Hsub, Hfresh. split_and!; [done..| |].
  - intros x Hx. apply Hsub, elem_of_app. by left.
  - intros i j e1 e2 Hij H1 H2. apply (Hfresh i j); [done|..].
    + apply lookup_app_l_Some, H1.
    + apply lookup_app_l_Some, H2.
Qed.

Lemma for_each_action_kept s0
    (visit : St → Act → Searcher → call bool)
    (state : St) (action : option Act) path :
  (∀ next_state a self self' r,
     a ∈ get_possible_actions state → apply_action state a = Returned next_state →
     tidy s0 self →
     visit next_state a self = Some (self', r) →
     dfs_kept s0 self self' r ∧
     (r = Returned false → path_to_goal self' = path_to_goal self)) →
  ∀ actions (self self' : Searcher) r,
    (∀ a, a ∈ actions → a ∈ get_possible_actions state) →
    tidy s0 self →
    path_to_goal self = path ++ [(state, action)] →
    for_each_action visit state actions self = Some (self', r) →
    dfs_kept s0 self self' r ∧ (r = Returned false → path_to_goal self' = path).
Proof.
  intros Hvisit actions.
  induction actions as [|next_action actions IH]; intros self self' r Hin Htidy Hpath Hloop;
    simpl in Hloop.
  - rewrite (pop_and_fail_snoc _ _ _ Hpath) in Hloop. simplify_eq.
    split; [|done]. unfold dfs_kept. simpl. split_and!; [|done|done|auto].
    by apply (tidy_pop _ _ _ _ Htidy Hpath).
  - destruct (apply_action state next_action) as [next_state|e] eqn:Happly.
    2:{ simplify_eq. split; [|done]. unfold dfs_kept. split_and!; auto. }
    destruct (visit next_state next_action self) as [[self1 r1]|] eqn:Hcall; [|done].
    assert (next_action ∈ get_possible_actions state) as Hnext.
    { apply Hin. left. }
    destruct (Hvisit _ _ _ _ _ Hnext Happly Htidy Hcall) as [Hkept Hsame].
    destruct r1 as [[|]|e]; simplify_eq; try done.
    destruct Hkept as (Htidy1 & Hinit1 & Hmono1 & Hgoal1).
    specialize (Hsame eq_refl).
    destruct (IH self1 self' r) as [(Htidy' & Hinit' & Hmono' & Hgoal') Hfalse];
      try done.
    { intros a Ha. apply Hin. by right. }
    { congruence. }
    split; [|done]. unfold dfs_kept. split_and!; [done|congruence|auto|].
    intros x Hx Hg. destruct (Hgoal' x Hx Hg) as [Hx1|?]; [|by right].
    destruct (Hgoal1 x Hx1 Hg) as [?|[? _]]; [by left|done].
Qed.

Lemma _dfs_kept s0 fuel :
  ∀ state action depth max_depth (self self' : Searcher) r,
    tidy s0 self → (∃ n, reaches n s0 state) →
    _dfs fuel state action depth max_depth self = Some (self', r) →
    dfs_kept s0 self self' r ∧
    (visited self state = false → state ∈ visited_states self').
Proof.
  induction fuel as [|fuel IH];
    intros state action depth max_depth self self' r Htidy Hstate Hcall; [done|].
  simpl in Hcall.
  destruct (visited self state) eqn:Hvisited.
  { simplify_eq. unfold dfs_kept. split_and!; auto. done. }
  cut (dfs_kept s0 self self' r ∧ state ∈ visited_states self'); [by intros [??]|].
  pose proof (tidy_push s0 self state action Htidy Hstate Hvisited) as Htidy1.
  set (self1 := path_append (visited_add self state) (state, action)) in *.
  assert (visited_states self1 = state :: visited_states self) as Hv1.
  { simpl. unfold set_add. unfold visited in Hvisited. by rewrite Hvisited. }
  assert (path_to_goal self1 = path_to_goal self ++ [(state, action)]) as Hp1 by done.
  assert (initial_state self1 = initial_state self) as Hi1 by done.
  clearbody self1.
  destruct (is_goal state) eqn:Hgoal.
  { simplify_eq. unfold dfs_kept. split_and!; [done..| | |].
    - intros x Hx. rewrite Hv1. by right.
    - rewrite Hv1. intros x Hx Hg. apply elem_of_cons in Hx as [->|Hx]; [right|by left].
      split; [done|]. exists action. by rewrite Hp1, last_snoc.
    - rewrite Hv1. apply list_elem_of_here. }
  destruct ((0 <=? max_depth) && (max_depth <=? depth)) eqn:Hbound.
  { rewrite (pop_and_fail_snoc _ _ _ Hp1) in Hcall. simplify_eq.
    unfold dfs_kept. simpl. split_and!; [by apply (tidy_pop _ _ _ _ Htidy1 Hp1)|done| | |].
    - intros x Hx. rewrite Hv1. by right.
    - rewrite Hv1. intros x Hx Hg.
      apply elem_of_cons in Hx as [->|Hx]; [congruence|by left].
    - rewrite Hv1. apply list_elem_of_here. }
  apply (for_each_action_kept s0 _ state action (path_to_goal self)) in Hcall;
    try done.
  - destruct Hcall as [(Htidy' & Hinit' & Hmono' & Hgoal') _].
    unfold dfs_kept. split_and!; [done|congruence| | |].
    + intros x Hx. apply Hmono'. rewrite Hv1. by right.
    + intros x Hx Hg. destruct (Hgoal' x Hx Hg) as [Hx1|?]; [|by right].
      rewrite Hv1 in Hx1. apply elem_of_cons in Hx1 as [->|]; [congruence|by left].
    + apply Hmono'. rewrite Hv1. apply list_elem_of_here.
  - intros next_state a self2 self2' r2 Ha Happly Htidy2 Hcall2. split.
    + apply (IH next_state (Some a) (depth + 1) max_depth self2 self2' r2);
        [done| |done].
      destruct Hstate as [n Hn]. exists (S n). by apply (reaches_snoc n s0 state _ a).
    + intros ->. by apply _dfs_returns in Hcall2 as (_ & _ & ? & _).
Qed.

Lemma search_kept fuel max_depth (self self' : Searcher) r :
  search fuel max_depth self = Some (self', r) →
  dfs_kept (initial_state self)
    {| initial_state := initial_state self; visited_states := []; path_to_goal := [] |}
    self' r ∧
  initial_state self ∈ visited_states self'.
Proof.
  unfold search. intros Hcall. simpl in Hcall.
  apply (_dfs_kept (initial_state self)) in Hcall; [|..].
  { destruct Hcall as [? Hin]. split; [done|]. by apply Hin. }
  - unfold tidy. simpl. split_and!.
    + intros x Hx. by apply elem_of_nil in Hx.
    + done.
    + intros e He. by apply elem_of_nil in He.
    + by intros i j e1 e2 _ H1.
  - exists 0%nat. constructor.
Qed.

(** X1. The states marked visited are states that enumerated actions reach from
    the initial state, the initial state is one of them, and so are the
    states of the path. *)
Theorem search_visits_reachable fuel max_depth (self self' : Searcher) r :
  search fuel max_depth self = Some (self', r) →
  initial_state self ∈ visited_states self' ∧
  (∀ x, x ∈ visited_states self' → ∃ n, reaches n (initial_state self) x) ∧
  (∀ e, e ∈ path_to_goal self' → e.1 ∈ visited_states self').
Proof.
  intros Hcall. apply search_kept in Hcall as [((Hreach & _ & Hsub & _) & _) Hinit].
  by split_and!.
Qed.

(** X2. A goal state is marked visited only by the call that ends the search:
    the search then returns true and that state ends the path. *)
Theorem search_stops_at_first_goal fuel max_depth (self self' : Searcher) r :
  search fuel max_depth self = Some (self', r) →
  ∀ x, x ∈ visited_states self' → is_goal x = true →
       r = Returned true ∧ ∃ oa, last (path_to_goal self') = Some (x, oa).
Proof.
  intros Hcall x Hx Hgoal.
  apply search_kept in Hcall as [(_ & _ & _ & Hgoals) _].
  destruct (Hgoals x Hx Hgoal) as [Hnil|?]; [|done].
  by apply elem_of_nil in Hnil.
Qed.

(** X3. A second call of [search] on the searcher that a first call has left
    does what the first call did; what a searcher holds before a call does not
    matter. *)
Theorem search_again fuel max_depth (self self1 : Searcher) r :
  search fuel max_depth self = Some (self1, r) →
  search fuel max_depth self1 = Some (self1, r) ∧
  ∀ self2 : Searcher, initial_state self2 = initial_state self →
    search fuel max_depth self2 = Some (self1, r).
Proof.
  intros Hcall.
  pose proof Hcall as [(_ & Hinit & _) _]%search_kept. simpl in Hinit.
  assert (∀ self2 : Searcher, initial_state self2 = initial_state self →
            search fuel max_depth self2 = Some (self1, r)) as Hany.
  { intros self2 Heq. rewrite <- Hcall. unfold search. by rewrite Heq. }
  split; [by apply Hany|done].
Qed.

(** X5. With the depth bound 0, or from a state with no possible action, a
    search looks at the initial state only: it marks it visited and returns
    whether it is a goal, with the path holding it if it is. *)
Theorem search_single_state (fuel : nat) (max_depth : Z) (self : DFSSearcher St Act) :
  max_depth = 0 ∨ get_possible_actions (initial_state self) = [] →
  search (S fuel) max_depth self
  = Some ({| initial_state := initial_state self;
             visited_states := [initial_state self];
             path_to_goal := if is_goal (initial_state self)
                             then [(initial_state self, None)] else [] |},
          Returned (is_goal (initial_state self))).
Proof.
  intros Hcase. unfold search. simpl.
  destruct (is_goal (initial_state self)); [done|].
  destruct Hcase as [->|Hnone]; [done|].
  rewrite Hnone. by destruct ((0 <=? max_depth) && (max_depth <=? 0)).
Qed.

End invariants.

Lemma search_visits_reachable_witness :
  ∃ self',
    @dfs.search _ _ (WSPState_State (λ _, 0)) 10 (-1) (dfs.__init__ unsorted)
    = Some (self', Returned true) ∧
    unsorted ∈ dfs.visited_states self'.
Proof.
  eexists. split; [by vm_compute|].
  apply (search_visits_reachable (State0 := WSPState_State (λ _, 0)) 10 (-1)
           (dfs.__init__ unsorted) _ (Returned true)).
  by vm_compute.
Defined.

Lemma search_stops_at_first_goal_witness :
  ∃ self',
    @dfs.search _ _ (WSPState_State (λ _, 0)) 10 (-1) (dfs.__init__ solved)
    = Some (self', Returned true) ∧
    ∃ oa, last (dfs.path_to_goal self') = Some (solved, oa).
Proof.
  eexists. split; [by vm_compute|].
  apply (search_stops_at_first_goal (State0 := WSPState_State (λ _, 0)) 10 (-1)
           (dfs.__init__ solved) _ (Returned true) ltac:(by vm_compute) solved).
  - apply list_elem_of_here.
  - reflexivity.
Defined.

Lemma search_again_witness :
  ∃ self1 r,
    @dfs.search _ _ (WSPState_State (λ _, 0)) 10 (-1) (dfs.__init__ unsorted)
    = Some (self1, r) ∧
    @dfs.search _ _ (WSPState_State (λ _, 0)) 10 (-1) self1 = Some (self1, r).
Proof.
  eexists _, _. split; [by vm_compute|].
  refine (proj1 (search_again (State0 := WSPState_State (λ _, 0)) 10 (-1)
                   (dfs.__init__ unsorted) _ _ _)).
  by vm_compute.
Defined.

Lemma search_single_state_witness :
  @dfs.search _ _ (WSPState_State (λ _, 0)) 1 0 (dfs.__init__ unsorted)
  = Some ({| dfs.initial_state := unsorted; dfs.visited_states := [unsorted];
             dfs.path_to_goal := [] |}, Returned false).
Proof.
  apply (search_single_state (State0 := WSPState_State (λ _, 0)) 0 0 (dfs.__init__ unsorted)).
  by left.
Defined.

Lemma eq_sym_wsp (S1 S2 : WSPState) : __eq__ S1 S2 = __eq__ S2 S1.
Proof.
  apply eq_true_iff_eq. rewrite !eq_true_iff. split; intros H; by symmetry.
Qed.

Lemma wsp_set_contains_one hash (x y : WSPState) :
  set_contains (__hash__ hash) __eq__ [y] x = __eq__ x y.
Proof.
  unfold set_contains. simpl. rewrite orb_false_r, (eq_sym_wsp x y).
  destruct (__eq__ y x) eqn:Heq; [|by rewrite andb_false_r].
  rewrite andb_true_r. apply eq_true_iff, sorted_eq_iff in Heq.
  unfold __hash__. rewrite Heq. lia.
Qed.

(** X4. No state is marked visited twice, and no state is twice on the path:
    whatever implements [State], a state is never one that the set holding an
    earlier one contains; on the puzzle, no two visited states and no two
    states of the path are [__eq__]. *)
Theorem search_no_repeats :
  (∀ (St Act : Type) (impl : graph_base.State St Act) (fuel : nat) (max_depth : Z)
     (self self' : dfs.DFSSearcher St Act) (r : outcome bool),
     dfs.search fuel max_depth self = Some (self', r) →
     (∀ (i j : nat) x y, (i < j)%nat →
        dfs.visited_states self' !! i = Some x →
        dfs.visited_states self' !! j = Some y →
        set_contains graph_base.__hash__ graph_base.__eq__ [y] x = false) ∧
     (∀ (i j : nat) e1 e2, (i < j)%nat →
        dfs.path_to_goal self' !! i = Some e1 →
        dfs.path_to_goal self' !! j = Some e2 →
        set_contains graph_base.__hash__ graph_base.__eq__ [e1.1] e2.1 = false)) ∧
  (∀ (hash : list (list string) → Z) (fuel : nat) (max_depth : Z)
     (self self' : dfs.DFSSearcher WSPState Action) (r : outcome bool),
     @dfs.search _ _ (WSPState_State hash) fuel max_depth self = Some (self', r) →
     (∀ (i j : nat) x y, i ≠ j →
        dfs.visited_states self' !! i = Some x →
        dfs.visited_states self' !! j = Some y → __eq__ x y = false) ∧
     (∀ (i j : nat) e1 e2, i ≠ j →
        dfs.path_to_goal self' !! i = Some e1 →
        dfs.path_to_goal self' !! j = Some e2 → __eq__ e1.1 e2.1 = false)).
Proof.
  assert (∀ (St Act : Type) (impl : graph_base.State St Act) (fuel : nat) (max_depth : Z)
     (self self' : dfs.DFSSearcher St Act) (r : outcome bool),
     dfs.search fuel max_depth self = Some (self', r) →
     (∀ (i j : nat) x y, (i < j)%nat →
        dfs.visited_states self' !! i = Some x →
        dfs.visited_states self' !! j = Some y →
        set_contains graph_base.__hash__ graph_base.__eq__ [y] x = false) ∧
     (∀ (i j : nat) e1 e2, (i < j)%nat →
        dfs.path_to_goal self' !! i = Some e1 →
        dfs.path_to_goal self' !! j = Some e2 →
        set_contains graph_base.__hash__ graph_base.__eq__ [e1.1] e2.1 = false))
    as Hgeneric.
  { intros St Act impl fuel max_depth self self' r Hcall.
    apply search_kept in Hcall as [((_ & Hset & _ & Hfresh) & _) _].
    split; [|exact Hfresh].
    intros i j x y Hij Hi Hj.
    by apply (set_ok_lookup (dfs.visited_states self') i j). }
  split; [exact Hgeneric|].
  intros hash fuel max_depth self self' r Hcall.
  destruct (Hgeneric _ _ _ _ _ _ _ _ Hcall) as [Hvisited Hpath]. split.
  - intros i j x y Hij Hi Hj.
    destruct (decide (i < j)%nat).
    + rewrite <- (wsp_set_contains_one hash). by apply (Hvisited i j).
    + rewrite eq_sym_wsp, <- (wsp_set_contains_one hash).
      apply (Hvisited j i); [lia|done..].
  - intros i j e1 e2 Hij Hi Hj.
    destruct (decide (i < j)%nat).
    + rewrite eq_sym_wsp, <- (wsp_set_contains_one hash). by apply (Hpath i j).
    + rewrite <- (wsp_set_contains_one hash). apply (Hpath j i); [lia|done..].
Qed.

Lemma search_no_repeats_witness :
  ∃ self',
    @dfs.search _ _ (WSPState_State (λ _, 0)) 10 (-1) (dfs.__init__ unsorted)
    = Some (self', Returned true) ∧
    ∀ (i j : nat) e1 e2, i ≠ j →
      dfs.path_to_goal self' !! i = Some e1 →
      dfs.path_to_goal self' !! j = Some e2 → __eq__ e1.1 e2.1 = false.
Proof.
  eexists. split; [by vm_compute|].
  apply (proj2 search_no_repeats (λ _, 0) 10%nat (-1) (dfs.__init__ unsorted) _
           (Returned true)).
  by vm_compute.
Defined.

(** ** The unbounded search visits all that can be reached *)

Section complete.
Import graph_base dfs.
Context {St Act : Type} `{!State St Act}.
Local Abbreviation Searcher := (DFSSearcher St Act).

(** The visited set is looked up by [key], the actions enumerated at a state
    that satisfies [Inv] apply and lead to such states, and states with the
    same [key] have the same moves up to [key] and agree on [is_goal]. *)
Context {K : Type} (key : St → K) (Inv : St → Prop).
Hypothesis contains_key :
  ∀ v s, set_contains __hash__ __eq__ v s = true ↔ key s ∈ key <$> v.
Hypothesis Inv_step :
  ∀ s a, Inv s → a ∈ get_possible_actions s →
         ∃ s', apply_action s a = Returned s' ∧ Inv s'.
Hypothesis sim_step :
  ∀ x y a x', Inv x → Inv y → key x = key y →
    a ∈ get_possible_actions x → apply_action x a = Returned x' →
    ∃ b y', b ∈ get_possible_actions y ∧ apply_action y b = Returned y' ∧
            key x' = key y'.
Hypothesis sim_goal :
  ∀ x y, Inv x → Inv y → key x = key y → is_goal x = is_goal y.

Lemma reaches_Inv (n : nat) (s g : St) : reaches n s g → Inv s → Inv g.
Proof.
  induction 1 as [s|n s a s' g Ha Happly _ IH]; [done|]. intros Hs. apply IH.
  destruct (Inv_step s a Hs Ha) as (s'' & Happly' & Hs''). congruence.
Qed.

Lemma for_each_action_closed
    (visit : St → Act → Searcher → call bool) (state : St) (action : option Act)
    (stack : list St) path :
  (∀ next_state a self self',
     visit next_state a self = Some (self', Returned false) →
     closed key (stack ++ [state]) (visited_states self) →
     closed key (stack ++ [state]) (visited_states self') ∧
     key next_state ∈ key <$> visited_states self' ∧
     (∀ x, x ∈ visited_states self → x ∈ visited_states self') ∧
     path_to_goal self' = path_to_goal self) →
  ∀ actions (self self' : Searcher),
    path_to_goal self = path ++ [(state, action)] →
    closed key (stack ++ [state]) (visited_states self) →
    for_each_action visit state actions self = Some (self', Returned false) →
    closed key (stack ++ [state]) (visited_states self') ∧
    (∀ x, x ∈ visited_states self → x ∈ visited_states self') ∧
    (∀ a x', a ∈ actions → apply_action state a = Returned x' →
             key x' ∈ key <$> visited_states self') ∧
    path_to_goal self' = path.
Proof.
  intros Hvisit actions.
  induction actions as [|next_action actions IH]; intros self self' Hpath Hclosed Hloop;
    simpl in Hloop.
  - rewrite (pop_and_fail_snoc _ _ _ Hpath) in Hloop. simplify_eq. simpl.
    split_and!; [done|done| |done]. intros a x' Ha. by apply elem_of_nil in Ha.
  - destruct (apply_action state next_action) as [next_state|e] eqn:Happly; [|done].
    destruct (visit next_state next_action self) as [[self1 [[|]|e]]|] eqn:Hcall;
      try done.
    destruct (Hvisit _ _ _ _ Hcall Hclosed) as (Hclosed1 & Hkey1 & Hmono1 & Hpath1).
    destruct (IH self1 self') as (Hclosed' & Hmono' & Hall & Hpath'); try done.
    { congruence. }
    split_and!; [done|auto| |done].
    intros a x' Ha Hx'. apply elem_of_cons in Ha as [->|Ha]; [|by apply (Hall a)].
    assert (x' = next_state) as -> by congruence.
    apply list_elem_of_fmap in Hkey1 as (y & Hy & Hin).
    apply list_elem_of_fmap. exists y. split; [done|]. by apply Hmono'.
Qed.

Lemma closed_more (stack v v' : list St) (x : St) :
  (∀ y, y ∈ v → y ∈ v') →
  (x ∈ stack ∨
   ∀ a x', a ∈ get_possible_actions x → apply_action x a = Returned x' →
           key x' ∈ key <$> v) →
  x ∈ stack ∨
  ∀ a x', a ∈ get_possible_actions x → apply_action x a = Returned x' →
          key x' ∈ key <$> v'.
Proof.
  intros Hsub [?|Hall]; [by left|right]. intros a x' Ha Hx'.
  specialize (Hall a x' Ha Hx'). apply list_elem_of_fmap in Hall as (y & Hy & Hin).
  apply list_elem_of_fmap. exists y. auto.
Qed.

Lemma _dfs_closed fuel (max_depth : Z) :
  max_depth < 0 →
  ∀ state action depth (stack : list St) (self self' : Searcher),
    closed key stack (visited_states self) →
    _dfs fuel state action depth max_depth self = Some (self', Returned false) →
    closed key stack (visited_states self') ∧
    key state ∈ key <$> visited_states self' ∧
    (∀ x, x ∈ visited_states self → x ∈ visited_states self') ∧
    path_to_goal self' = path_to_goal self.
Proof.
  intros Hmax.
  induction fuel as [|fuel IH]; intros state action depth stack self self' Hclosed Hcall;
    [done|]. simpl in Hcall.
  destruct (visited self state) eqn:Hvisited.
  { simplify_eq. split_and!; try done. by apply contains_key. }
  set (self1 := path_append (visited_add self state) (state, action)) in *.
  assert (visited_states self1 = state :: visited_states self) as Hv1.
  { simpl. unfold set_add. unfold visited in Hvisited. by rewrite Hvisited. }
  assert (path_to_goal self1 = path_to_goal self ++ [(state, action)]) as Hp1 by done.
  clearbody self1.
  destruct (is_goal state); [done|].
  replace ((0 <=? max_depth) && (max_depth <=? depth)) with false in Hcall by lia.
  assert (closed key (stack ++ [state]) (visited_states self1)) as Hclosed1.
  { rewrite Hv1. intros x Hx. apply elem_of_cons in Hx as [->|Hx].
    - left. apply elem_of_app. right. apply list_elem_of_here.
    - apply (closed_more (stack ++ [state]) (visited_states self)).
      + intros y Hy. by right.
      + destruct (Hclosed x Hx) as [?|?]; [left|by right].
        apply elem_of_app. by left. }
  apply (for_each_action_closed _ state action stack (path_to_goal self)) in Hcall;
    try done.
  - destruct Hcall as (Hclosed' & Hmono' & Hall & Hpath').
    assert (state ∈ visited_states self') as Hstate.
    { apply Hmono'. rewrite Hv1. apply list_elem_of_here. }
    split_and!; [|by apply list_elem_of_fmap_2| |done].
    + intros x Hx. destruct (Hclosed' x Hx) as [Hstack|?]; [|by right].
      apply elem_of_app in Hstack as [?|Hx']; [by left|right].
      apply list_elem_of_singleton in Hx' as ->. intros a x' Ha. by apply Hall.
    + intros x Hx. apply Hmono'. rewrite Hv1. by right.
  - intros next_state a self2 self2' Hcall2 Hclosed2.
    by apply (IH next_state (Some a) (depth + 1) (stack ++ [state])).
Qed.

(** An unbounded search that returns false has visited, up to [key], every
    state that enumerated actions reach from the initial state. *)
Lemma search_false_complete fuel max_depth (self self' : Searcher) :
  max_depth < 0 → Inv (initial_state self) →
  search fuel max_depth self = Some (self', Returned false) →
  ∀ n g, reaches n (initial_state self) g → is_goal g = false.
Proof.
  intros Hmax Hinit Hcall.
  pose proof Hcall as Hpost. apply search_returns in Hpost as (_ & Hiff & _).
  pose proof Hcall as Hreach. apply search_kept in Hreach as [((Hreach & _) & _) _].
  unfold search in Hcall.
  apply (_dfs_closed fuel max_depth Hmax _ _ _ []) in Hcall as (Hclosed & Hkey0 & _);
    [|by intros x Hx; apply elem_of_nil in Hx].
  simpl in Hkey0.
  assert (∀ y, y ∈ visited_states self' → Inv y) as Hinv.
  { intros y Hy. destruct (Hreach y Hy) as [m Hm]. by apply (reaches_Inv m _ _ Hm). }
  assert (∀ n x g, reaches n x g → Inv x → key x ∈ key <$> visited_states self' →
                   key g ∈ key <$> visited_states self') as Hall.
  { intros n x g Hn. induction Hn as [s|n s a s' g Ha Happly _ IH]; [done|].
    intros Hs Hkey. apply list_elem_of_fmap in Hkey as (y & Hy & Hin).
    destruct (sim_step s y a s' Hs (Hinv y Hin) Hy Ha Happly) as (b & y' & Hb & Hy' & Hkey').
    apply IH.
    - destruct (Inv_step s a Hs Ha) as (s'' & Happly' & Hs''). congruence.
    - rewrite Hkey'. destruct (Hclosed y Hin) as [Hnil|Hsucc];
        [by apply elem_of_nil in Hnil|]. by apply (Hsucc b). }
  intros n g Hn. specialize (Hall n _ g Hn Hinit Hkey0).
  apply list_elem_of_fmap in Hall as (y & Hy & Hin).
  rewrite (sim_goal g y (reaches_Inv n _ _ Hn Hinit) (Hinv y Hin) Hy).
  apply not_true_iff_false. intros Hgoal.
  assert (false = true); [|done]. apply Hiff. eauto.
Qed.

End complete.

Section wsp_complete.
Variable hash : list (list string) → Z.
Local Abbreviation wsp := (WSPState_State hash).

Lemma in_puzzle_step n units c (S : WSPState) (a : Action) :
  in_puzzle n units c S → a ∈ get_possible_actions S →
  ∃ S', apply_action S a = Returned S' ∧ in_puzzle n units c S'.
Proof.
  intros [Hunits Hcap] Ha.
  destruct (wsp_holds_units_step n units S a Hunits Ha) as (S' & Happly & Hunits').
  exists S'. split; [done|]. split; [done|].
  by rewrite (apply_action_capacity _ _ _ Happly).
Qed.

Lemma in_puzzle_sim_step n units c (x y : WSPState) a x' :
  in_puzzle n units c x → in_puzzle n units c y → key x = key y →
  a ∈ get_possible_actions x → apply_action x a = Returned x' →
  ∃ b y', b ∈ get_possible_actions y ∧ apply_action y b = Returned y' ∧
          key x' = key y'.
Proof.
  intros [_ Hcx] [_ Hcy] Hkey Ha Happly. apply sorted_eq_iff in Hkey.
  destruct (apply_action_permuted x y a x' Hkey ltac:(congruence) Ha Happly)
    as (b & y' & Hb & Hy' & Hperm & _).
  exists b, y'. split_and!; [done..|]. by apply sorted_eq_iff.
Qed.

Lemma in_puzzle_sim_goal n units c (x y : WSPState) :
  in_puzzle n units c x → in_puzzle n units c y → key x = key y →
  is_goal x = is_goal y.
Proof.
  intros [_ Hcx] [_ Hcy] Hkey. apply sorted_eq_iff in Hkey.
  apply is_goal_permuted; [done|congruence].
Qed.

Lemma wsp_search_false_complete fuel max_depth
    (self self' : dfs.DFSSearcher WSPState Action) :
  max_depth < 0 →
  @dfs.search _ _ wsp fuel max_depth self = Some (self', Returned false) →
  ∀ n g, @reaches _ _ wsp n (dfs.initial_state self) g → is_goal g = false.
Proof.
  intros Hmax Hcall.
  apply (@search_false_complete _ _ wsp _ key
           (in_puzzle (length (tubes (dfs.initial_state self)))
                      (concat (tubes (dfs.initial_state self)))
                      (max_tube_capacity (dfs.initial_state self)))
           (wsp_contains_key hash)
           (in_puzzle_step _ _ _) (in_puzzle_sim_step _ _ _) (in_puzzle_sim_goal _ _ _)
           fuel max_depth self self' Hmax); [|done].
  by split.
Qed.

End wsp_complete.

(** X6. An unbounded search on the puzzle is complete: it returns (given fuel
    enough), and it returns true iff enumerated actions reach some goal state
    from the initial state. *)
Theorem search_unbounded_complete (hash : list (list string) → Z) (max_depth : Z)
    (self : dfs.DFSSearcher WSPState Action) :
  max_depth < 0 →
  ∃ fuel0 : nat, ∀ fuel : nat, (fuel0 ≤ fuel)%nat →
  ∃ self' b,
    @dfs.search _ _ (WSPState_State hash) fuel max_depth self
    = Some (self', Returned b) ∧
    (b = true ↔
     ∃ (n : nat) g,
       @reaches _ _ (WSPState_State hash) n (dfs.initial_state self) g ∧
       is_goal g = true).
Proof.
  intros Hmax. eexists. intros fuel Hfuel.
  destruct (wsp_search_terminates hash fuel max_depth self)
    as (self' & b & Hcall & Hpost); [exact Hfuel|].
  exists self', b. split; [done|]. split.
  - intros ->. destruct Hpost as (_ & Hiff & _).
    destruct (proj1 Hiff eq_refl) as (g & Hg & Hgoal).
    apply search_kept in Hcall as [((Hreach & _) & _) _].
    destruct (Hreach g Hg) as [n Hn]. by exists n, g.
  - intros (n & g & Hn & Hgoal). destruct b; [done|].
    pose proof (wsp_search_false_complete hash fuel max_depth self self' Hmax Hcall n g Hn).
    congruence.
Qed.

Lemma search_unbounded_complete_witness :
  ∃ fuel0 : nat, ∀ fuel : nat, (fuel0 ≤ fuel)%nat →
  ∃ self' b,
    @dfs.search _ _ (WSPState_State (λ _, 0)) fuel (-1) (dfs.__init__ unsorted)
    = Some (self', Returned b) ∧
    (b = true ↔
     ∃ (n : nat) g,
       @reaches _ _ (WSPState_State (λ _, 0)) n unsorted g ∧ is_goal g = true).
Proof.
  apply (search_unbounded_complete (λ _, 0) (-1) (dfs.__init__ unsorted)). lia.
Defined.

(** X7. A search with a depth bound can return false though a goal state lies
    within the bound: a state that the search has marked visited at the
    deepest level is not entered again when a shorter way leads to it. *)
Theorem depth_bounded_search_incomplete :
  ¬ ∀ (hash : list (list string) → Z) (fuel k : nat)
      (self self' : dfs.DFSSearcher WSPState Action) (b : bool),
      @dfs.search _ _ (WSPState_State hash) fuel (Z.of_nat k) self
      = Some (self', Returned b) →
      (∃ (n : nat) g, (n ≤ k)%nat ∧
         @reaches _ _ (WSPState_State hash) n (dfs.initial_state self) g ∧
         is_goal g = true) →
      b = true.
Proof.
  intros Hcomplete.
  assert (false = true); [|done].
  eapply (Hcomplete (λ _, 0) 10%nat 2%nat (dfs.__init__ detour)); [by vm_compute|].
  exists 2%nat, {| tubes := [[]; ["A"; "A"]; ["B"; "B"]; []]; max_tube_capacity := 2 |}.
  split; [done|]. split; [|reflexivity].
  apply (reaches_step (State0 := WSPState_State (λ _, 0)) 1 detour (pour 3 2)
           {| tubes := [[]; ["A"]; ["B"; "B"]; ["A"]]; max_tube_capacity := 2 |});
    [apply list_elem_of_In; vm_compute; tauto|reflexivity|].
  apply (reaches_step (State0 := WSPState_State (λ _, 0)) 0 _ (pour 3 1)
           {| tubes := [[]; ["A"; "A"]; ["B"; "B"]; []]; max_tube_capacity := 2 |});
    [apply list_elem_of_In; vm_compute; tauto|reflexivity|].
  apply reaches_here.
Qed.

(** ** The states a search goes through *)

Section reachable.
Variable hash : list (list string) → Z.

Lemma reaches_same_puzzle (n : nat) (S0 S : WSPState) :
  @reaches _ _ (WSPState_State hash) n S0 S →
  length (tubes S) = length (tubes S0) ∧
  concat (tubes S) ≡ₚ concat (tubes S0) ∧
  max_tube_capacity S = max_tube_capacity S0 ∧
  (within_capacity S0 → within_capacity S).
Proof.
  induction 1 as [S0|n S0 a S1 S Ha Happly _ IH]; [done|].
  simpl in Ha, Happly.
  destruct IH as (Hlen & Hperm & Hcap & Hfits).
  destruct (wsp_holds_units_step _ _ S0 a (conj eq_refl (reflexivity _)) Ha)
    as (S1' & Happly' & Hlen1 & Hperm1).
  assert (S1' = S1) as -> by congruence.
  split_and!.
  - congruence.
  - by etrans.
  - rewrite Hcap. by apply (apply_action_capacity S0 a).
  - intros H0. by apply Hfits, (apply_action_fits S0 a).
Qed.

Lemma set_ok_NoDup_key (v : list WSPState) :
  @set_ok _ _ (WSPState_State hash) v → NoDup (key <$> v).
Proof.
  induction v as [|x v IH]; simpl; [constructor|].
  intros [Hx Hv]. constructor; [|by apply IH].
  intros Hin. apply (wsp_contains_key hash) in Hin. congruence.
Qed.

Lemma path_fresh_NoDup (path : list (WSPState * option Action)) :
  @path_fresh _ _ (WSPState_State hash) path → NoDup (key <$> path.*1).
Proof.
  intros Hfresh. apply NoDup_alt. intros i j k Hi Hj.
  rewrite !list_lookup_fmap in Hi, Hj.
  destruct (path !! i) as [e1|] eqn:He1; [|done].
  destruct (path !! j) as [e2|] eqn:He2; [|done].
  simpl in Hi, Hj.
  assert (∀ (i j : nat) e1 e2, (i < j)%nat → path !! i = Some e1 → path !! j = Some e2 →
            key e1.1 ≠ key e2.1) as Hlt.
  { intros i' j' e1' e2' Hij H1 H2 Hkey.
    pose proof (Hfresh i' j' e1' e2' Hij H1 H2) as Hc.
    simpl in Hc.
    assert (set_contains (__hash__ hash) __eq__ [e1'.1] e2'.1 = true) as Ht;
      [|simpl in Ht; congruence].
    apply wsp_contains_key. rewrite <- Hkey. apply list_elem_of_here. }
  destruct (Nat.lt_trichotomy i j) as [Hij|[Hij|Hij]]; [|done|].
  - exfalso. apply (Hlt i j e1 e2 Hij He1 He2). by simplify_eq/=.
  - exfalso. apply (Hlt j i e2 e1 Hij He2 He1). by simplify_eq/=.
Qed.

End reachable.

(** X9. Every state that enumerated actions reach from a state, and so every
    state that a search marks visited or puts on the path, is an arrangement
    of the same puzzle: as many tubes, the same units, the same capacity, and
    no tube over the capacity if none was. *)
Theorem search_same_puzzle (hash : list (list string) → Z) (fuel : nat)
    (max_depth : Z) (self self' : dfs.DFSSearcher WSPState Action) (r : outcome bool) :
  @dfs.search _ _ (WSPState_State hash) fuel max_depth self = Some (self', r) →
  ∀ S, S ∈ dfs.visited_states self' ∨ (∃ oa, (S, oa) ∈ dfs.path_to_goal self') →
    length (tubes S) = length (tubes (dfs.initial_state self)) ∧
    concat (tubes S) ≡ₚ concat (tubes (dfs.initial_state self)) ∧
    max_tube_capacity S = max_tube_capacity (dfs.initial_state self) ∧
    (within_capacity (dfs.initial_state self) → within_capacity S).
Proof.
  intros Hcall S HS.
  apply search_kept in Hcall as [((Hreach & _ & Hsub & _) & _) _].
  assert (S ∈ dfs.visited_states self') as Hin.
  { destruct HS as [?|[oa Hoa]]; [done|]. by apply (Hsub (S, oa)). }
  destruct (Hreach S Hin) as [n Hn]. by apply (reaches_same_puzzle hash n).
Qed.

Lemma search_same_puzzle_witness :
  ∃ self',
    @dfs.search _ _ (WSPState_State (λ _, 0)) 10 (-1) (dfs.__init__ unsorted)
    = Some (self', Returned true) ∧
    ∀ S, S ∈ dfs.visited_states self' →
      concat (tubes S) ≡ₚ concat (tubes unsorted).
Proof.
  eexists. split; [by vm_compute|].
  intros S HS.
  apply (search_same_puzzle (λ _, 0) 10 (-1) (dfs.__init__ unsorted) _ (Returned true)
           ltac:(by vm_compute) S (or_introl HS)).
Defined.

Lemma length_lists_of {A} (alphabet : list A) (n : nat) (l : list A) :
  l ∈ lists_of alphabet n → length l = n.
Proof.
  revert l. induction n as [|n IH]; intros l Hl; simpl in Hl.
  - by apply list_elem_of_singleton in Hl as ->.
  - apply list_elem_of_bind in Hl as (x & Hl & _).
    apply list_elem_of_fmap in Hl as (l' & -> & Hl'). simpl. f_equal. by apply IH.
Qed.

Lemma concat_Permutation {A} (l k : list (list A)) : l ≡ₚ k → concat l ≡ₚ concat k.
Proof.
  induction 1 as [|x l k _ IH|x y l|l k m _ IH1 _ IH2]; simpl.
  - done.
  - by rewrite IH.
  - rewrite !app_assoc. f_equiv. apply Permutation_app_comm.
  - by etrans.
Qed.

Lemma elem_of_canonical_forms (n : nat) (units : list string) k :
  k ∈ canonical_forms n units ↔ ∃ S, holds_units n units S ∧ key S = k.
Proof.
  unfold canonical_forms. rewrite elem_of_remove_dups, list_elem_of_filter. split.
  - intros [[Hsorted Hunits] Hin].
    exists {| tubes := k; max_tube_capacity := 0 |}. split; [|done].
    split; [|done]. simpl. by apply (length_lists_of _ _ _ Hin).
  - intros (S & Hholds & <-). split; [|by apply wsp_holds_units_key].
    unfold key. split.
    + apply sorted_eq_iff, sorted_Permutation.
    + destruct Hholds as [_ Hperm]. rewrite <- Hperm.
      apply concat_Permutation, sorted_Permutation.
Qed.

Lemma canonical_forms_example :
  canonical_forms 2 ["A"; "A"] = [[[]; ["A"; "A"]]; [["A"]; ["A"]]].
Proof. vm_compute. reflexivity. Qed.

(** X10. However a search on the puzzle ends, the path has no more entries than
    there are states marked visited, and those are no more than the canonical
    forms of the arrangements of the units of the initial state in as many
    tubes: the list [canonical_forms] holds each of these forms once. *)
Theorem search_work_bound (hash : list (list string) → Z) (fuel : nat)
    (max_depth : Z) (self self' : dfs.DFSSearcher WSPState Action) (r : outcome bool) :
  @dfs.search _ _ (WSPState_State hash) fuel max_depth self = Some (self', r) →
  let n := length (tubes (dfs.initial_state self)) in
  let units := concat (tubes (dfs.initial_state self)) in
  (length (dfs.path_to_goal self') ≤ length (dfs.visited_states self'))%nat ∧
  (length (dfs.visited_states self') ≤ length (canonical_forms n units))%nat ∧
  NoDup (canonical_forms n units) ∧
  (∀ k, k ∈ canonical_forms n units ↔ ∃ S, holds_units n units S ∧ key S = k).
Proof.
  intros Hcall n units.
  apply search_kept in Hcall as [((Hreach & Hset & Hsub & Hfresh) & _) _].
  split_and!.
  - rewrite <- (length_fmap fst), <- (length_fmap key (dfs.path_to_goal self').*1),
      <- (length_fmap key (dfs.visited_states self')).
    apply submseteq_length, NoDup_submseteq; [by apply (path_fresh_NoDup hash)|].
    intros k Hk. apply list_elem_of_fmap in Hk as [S [-> HS]].
    apply list_elem_of_fmap in HS as [e [-> He]].
    apply list_elem_of_fmap. exists e.1. split; [done|]. by apply Hsub.
  - rewrite <- (length_fmap key).
    apply submseteq_length, NoDup_submseteq; [by apply (set_ok_NoDup_key hash)|].
    intros k Hk. apply list_elem_of_fmap in Hk as [S [-> HS]].
    apply elem_of_canonical_forms. exists S. split; [|done].
    destruct (Hreach S HS) as [m Hm].
    destruct (reaches_same_puzzle hash m _ _ Hm) as (Hlen & Hperm & _). by split.
  - apply NoDup_remove_dups.
  - apply elem_of_canonical_forms.
Qed.

Lemma search_work_bound_witness :
  ∃ self',
    @dfs.search _ _ (WSPState_State (λ _, 0)) 10 (-1)
      (dfs.__init__ {| tubes := [["A"]; ["A"]]; max_tube_capacity := 2 |})
    = Some (self', Returned true) ∧
    (length (dfs.path_to_goal self') ≤ length (dfs.visited_states self'))%nat ∧
    (length (dfs.visited_states self') ≤ 2)%nat.
Proof.
  eexists. split; [by vm_compute|].
  destruct (search_work_bound (λ _, 0) 10 (-1)
              (dfs.__init__ {| tubes := [["A"]; ["A"]]; max_tube_capacity := 2 |})
              _ (Returned true) ltac:(by vm_compute)) as (Hpath & Hvisited & _).
  split; [exact Hpath|exact Hvisited].
Defined.

(** ** The hash function does not matter *)

Lemma wsp_set_contains_hash hash (v : list WSPState) (S : WSPState) :
  set_contains (__hash__ hash) __eq__ v S = existsb (λ y, __eq__ y S) v.
Proof.
  unfold set_contains. induction v as [|y v IH]; [done|]. simpl. rewrite IH. f_equal.
  destruct (__eq__ y S) eqn:Heq; [|by rewrite andb_false_r].
  rewrite andb_true_r. apply eq_true_iff, sorted_eq_iff in Heq.
  unfold __hash__. rewrite Heq. lia.
Qed.

Lemma for_each_action_ext {St Act : Type} (impl1 impl2 : graph_base.State St Act)
    (visit1 visit2 : St → Act → dfs.DFSSearcher St Act → @dfs.call St Act bool)
    (state : St) :
  (∀ s a, @graph_base.apply_action _ _ impl1 s a = @graph_base.apply_action _ _ impl2 s a) →
  (∀ s a self, visit1 s a self = visit2 s a self) →
  ∀ actions self,
    @dfs.for_each_action _ _ impl1 visit1 state actions self
    = @dfs.for_each_action _ _ impl2 visit2 state actions self.
Proof.
  intros Happly Hvisit actions. induction actions as [|a actions IH]; intros self; [done|].
  simpl. rewrite Happly.
  destruct (graph_base.apply_action state a) as [next_state|]; [|done].
  rewrite Hvisit.
  destruct (visit2 next_state a self) as [[self1 [[]|]]|]; try done.
Qed.

Lemma _dfs_hash_independent (hash1 hash2 : list (list string) → Z) (fuel : nat) :
  ∀ state action depth max_depth self,
    @dfs._dfs _ _ (WSPState_State hash1) fuel state action depth max_depth self
    = @dfs._dfs _ _ (WSPState_State hash2) fuel state action depth max_depth self.
Proof.
  induction fuel as [|fuel IH]; intros state action depth max_depth self; [done|].
  simpl. unfold dfs.visited, dfs.visited_add, set_add. simpl.
  rewrite !(wsp_set_contains_hash hash1), !(wsp_set_contains_hash hash2).
  destruct (existsb _ _); [done|].
  destruct (is_goal state); [done|].
  destruct (_ && _); [done|].
  apply (for_each_action_ext (WSPState_State hash1) (WSPState_State hash2));
    [done|].
  intros s a self1. apply IH.
Qed.

(** X8. The search on the puzzle does not depend on the hash function: with any
    two of them it visits the same states in the same order and gives the
    same result and path. *)
Theorem search_hash_independent (hash1 hash2 : list (list string) → Z)
    (fuel : nat) (max_depth : Z) (self : dfs.DFSSearcher WSPState Action) :
  @dfs.search _ _ (WSPState_State hash1) fuel max_depth self
  = @dfs.search _ _ (WSPState_State hash2) fuel max_depth self.
Proof. unfold dfs.search. apply _dfs_hash_independent. Qed.

(** * The tests of the repository, on the model *)

Example test_get_possible_actions_simple :
  get_possible_actions simple_state = [pour 0 1].
Proof. reflexivity. Qed.

Example test_get_possible_actions_complex :
  get_possible_actions complex_state
  = [pour 0 1; pour 0 3; pour 1 0; pour 1 3; pour 2 3].
Proof. reflexivity. Qed.

Example test_is_goal :
  is_goal complex_state = false ∧ is_goal partial_goal = false ∧
  is_goal goal_state = true.
Proof. by vm_compute. Qed.

Example test_apply_action_single :
  apply_action {| tubes := [["red"; "blue"]; []]; max_tube_capacity := 4 |} (pour 0 1)
  = Returned {| tubes := [["red"]; ["blue"]]; max_tube_capacity := 4 |}.
Proof. reflexivity. Qed.

Example test_apply_action_run :
  apply_action {| tubes := [["red"; "blue"; "blue"]; []]; max_tube_capacity := 4 |}
               (pour 0 1)
  = Returned {| tubes := [["red"]; ["blue"; "blue"]]; max_tube_capacity := 4 |}.
Proof. reflexivity. Qed.

Example test_apply_action_full :
  apply_action full_target (pour 1 0) = Raised ValueError_invalid_action.
Proof. reflexivity. Qed.

Example test_is_valid_action :
  is_valid_action {| tubes := [["red"; "blue"]; []]; max_tube_capacity := 4 |}
                  (pour 0 1) = true ∧
  is_valid_action {| tubes := [["red"; "blue"]; ["green"]]; max_tube_capacity := 4 |}
                  (pour 0 1) = false ∧
  is_valid_action {| tubes := [["red"]; ["blue"; "blue"; "blue"; "blue"]];
                     max_tube_capacity := 4 |} (pour 0 1) = false ∧
  is_valid_action {| tubes := [[]; ["blue"]]; max_tube_capacity := 4 |}
                  (pour 0 1) = false ∧
  is_valid_action {| tubes := [["red"]; ["blue"]]; max_tube_capacity := 4 |}
                  (pour 0 2) = false.
Proof. by vm_compute. Qed.

Example test_eq :
  __eq__ {| tubes := [["red"; "blue"]; ["green"]]; max_tube_capacity := 4 |}
         {| tubes := [["green"]; ["red"; "blue"]]; max_tube_capacity := 4 |} = true ∧
  __eq__ {| tubes := [["red"; "blue"]; ["green"]]; max_tube_capacity := 4 |}
         {| tubes := [["red"; "blue"]; ["yellow"]]; max_tube_capacity := 4 |} = false.
Proof. by vm_compute. Qed.

(** The puzzle of [main.py] is solved in eleven pours, with twelve states
    explored, whatever the hash function. *)
Example main_puzzle_solved (hash : list (list string) → Z) :
  ∃ self',
    @dfs.search _ _ (WSPState_State hash) 100 (-1) (dfs.__init__ main_puzzle)
      = Some (self', Returned true) ∧
    length (dfs.get_solution self') = 12%nat ∧
    length (dfs.visited_states self') = 12%nat.
Proof.
  unfold dfs.search. rewrite (_dfs_hash_independent hash (λ _, 0)).
  eexists. by vm_compute.
Qed.
